(** * near-api-js: transaction model, wire codec and signing pipeline

    A shallow embedding of [src/transaction.ts].  The TypeScript classes
    become records and inductive types, the builder functions become Rocq
    functions, the [SCHEMA] table becomes one writer and one reader per
    class (fields in the order of the table), and the asynchronous calls
    into the signer become the nodes of a small interaction tree. *)

From Stdlib Require Import ZArith List String Ascii Bool Lia.
From Stdlib.Strings Require Import Byte.
Import ListNotations.
Local Open Scope string_scope.
Local Open Scope list_scope.
Local Open Scope Z_scope.
Set Warnings "-register-all".

(** ** Bytes, errors and results *)

Definition bytes := list byte.

(** The typed failures of the codec and of the signing pipeline. *)
Inductive Error : Type :=
| TruncatedInput
| TrailingBytes
| UnknownDiscriminant
| ValueOutOfRange
| LengthMismatch
| TypeError
| SignerFailure (diagnostic : string).

Inductive result (A : Type) : Type :=
| Ok (a : A)
| Err (e : Error).
Arguments Ok {A} a.
Arguments Err {A} e.

Definition result_bind {A B : Type} (m : result A) (k : A -> result B) : result B :=
  match m with
  | Ok a => k a
  | Err e => Err e
  end.

Declare Scope result_scope.
Delimit Scope result_scope with result.
Notation "x <- m ;; k" := (result_bind m (fun x => k))
  (at level 61, m at next level, right associativity) : result_scope.

(** ** Little-endian unsigned integers *)

Definition Z_of_byte (b : byte) : Z := Z.of_N (Byte.to_N b).

Definition byte_of_Z (z : Z) : byte :=
  match Byte.of_N (Z.to_N (z mod 256)) with
  | Some b => b
  | None => x00
  end.

(** [new BN(value).toArray('le', width)] *)
Fixpoint toArray_le (width : nat) (value : Z) : bytes :=
  match width with
  | O => []
  | S w => byte_of_Z (value mod 256) :: toArray_le w (value / 256)
  end.

(** [new BN(buf, 'le')] *)
Fixpoint fromArray_le (buf : bytes) : Z :=
  match buf with
  | [] => 0
  | b :: rest => Z_of_byte b + 256 * fromArray_le rest
  end.

(** ** The binary writer

    Modelled from the spec: the writer and the reader of the [borsh]
    package ([serialize] and [deserialize] are imported from it), after the
    rules of the binary codec: fields in declared order without padding,
    little-endian fixed-width unsigned integers that must fit their width,
    a 4-byte little-endian length prefix before strings and sequences, raw
    fixed-size byte arrays, a 1-byte presence flag before an optional value
    and a 1-byte discriminant before the body of a union.

    A writer is the sequence of bytes appended to the buffer, or the error
    that interrupted the write. *)
Definition Writer := result bytes.

Definition write_then (w1 w2 : Writer) : Writer :=
  match w1 with
  | Ok b1 => match w2 with
             | Ok b2 => Ok (b1 ++ b2)
             | Err e => Err e
             end
  | Err e => Err e
  end.
Infix "+++" := write_then (at level 60, right associativity).

Definition fits (width : nat) (value : Z) : bool :=
  (0 <=? value) && (value <? 2 ^ (8 * Z.of_nat width)).

Definition writeUInt (width : nat) (value : Z) : Writer :=
  if fits width value then Ok (toArray_le width value) else Err ValueOutOfRange.

Definition writeU8 : Z -> Writer := writeUInt 1.
Definition writeU32 : Z -> Writer := writeUInt 4.
Definition writeU64 : Z -> Writer := writeUInt 8.
Definition writeU128 : Z -> Writer := writeUInt 16.

(** A string is held as the sequence of its UTF-8 bytes. *)
Definition writeString (str : string) : Writer :=
  let b := list_byte_of_string str in
  writeU32 (Z.of_nat (List.length b)) +++ Ok b.

Definition writeFixedArray (len : nat) (array : bytes) : Writer :=
  if Nat.eqb (List.length array) len then Ok array else Err LengthMismatch.

Definition write_all {A : Type} (fn : A -> Writer) (array : list A) : Writer :=
  fold_right (fun elem w => fn elem +++ w) (Ok []) array.

Definition writeArray {A : Type} (fn : A -> Writer) (array : list A) : Writer :=
  writeU32 (Z.of_nat (List.length array)) +++ write_all fn array.

Definition writeOption {A : Type} (fn : A -> Writer) (value : option A) : Writer :=
  match value with
  | None => writeU8 0
  | Some v => writeU8 1 +++ fn v
  end.

(** Field type [['u8']]: a sequence whose elements are written as [u8]. *)
Definition write_u8_array (array : bytes) : Writer :=
  writeArray (fun b => writeU8 (Z_of_byte b)) array.

Fixpoint index_of (name : string) (names : list string) : option nat :=
  match names with
  | [] => None
  | n :: rest => if String.eqb n name then Some O
                 else option_map S (index_of name rest)
  end.

(** A union: the position of the populated field in the declared list of
    variants, as one byte, then the body of that variant.  A field that
    the list does not declare has no encoding. *)
Definition writeEnum (values : list string) (name : string) (body : Writer) : Writer :=
  match index_of name values with
  | Some idx => writeU8 (Z.of_nat idx) +++ body
  | None => Err TypeError
  end.

(** ** The binary reader

    A reader consumes a prefix of the unread input and returns the decoded
    value with the rest of the input. *)
Definition Reader (A : Type) := bytes -> result (A * bytes).

Definition ret {A : Type} (a : A) : Reader A := fun input => Ok (a, input).

Definition fail {A : Type} (e : Error) : Reader A := fun _ => Err e.

Definition bind {A B : Type} (m : Reader A) (k : A -> Reader B) : Reader B :=
  fun input =>
    match m input with
    | Ok (a, rest) => k a rest
    | Err e => Err e
    end.

Declare Scope reader_scope.
Delimit Scope reader_scope with reader.
Notation "x <- m ;; k" := (bind m (fun x => k))
  (at level 61, m at next level, right associativity) : reader_scope.

Definition readBuffer (len : nat) : Reader bytes :=
  fun input =>
    if Nat.ltb (List.length input) len then Err TruncatedInput
    else Ok (firstn len input, skipn len input).

Definition readUInt (width : nat) : Reader Z :=
  (buf <- readBuffer width ;; ret (fromArray_le buf))%reader.

Definition readU8 : Reader Z := readUInt 1.
Definition readU32 : Reader Z := readUInt 4.
Definition readU64 : Reader Z := readUInt 8.
Definition readU128 : Reader Z := readUInt 16.

Definition readString : Reader string :=
  (len <- readU32 ;;
   buf <- readBuffer (Z.to_nat len) ;;
   ret (string_of_list_byte buf))%reader.

Definition readFixedArray (len : nat) : Reader bytes := readBuffer len.

Fixpoint read_times {A : Type} (n : nat) (fn : Reader A) : Reader (list A) :=
  match n with
  | O => ret []
  | S n' => (elem <- fn ;; rest <- read_times n' fn ;; ret (elem :: rest))%reader
  end.

Definition readArray {A : Type} (fn : Reader A) : Reader (list A) :=
  (len <- readU32 ;; read_times (Z.to_nat len) fn)%reader.

Definition readOption {A : Type} (fn : Reader A) : Reader (option A) :=
  (flag <- readU8 ;;
   if flag =? 0 then ret None else (v <- fn ;; ret (Some v)))%reader.

Definition read_u8_array : Reader bytes :=
  (elems <- readArray readU8 ;; ret (map byte_of_Z elems))%reader.

Definition readEnum {A : Type} (values : list (string * Reader A)) : Reader A :=
  (idx <- readU8 ;;
   match nth_error values (Z.to_nat idx) with
   | Some (_, body) => body
   | None => fail UnknownDiscriminant
   end)%reader.

(** A top-level entity must take the whole input. *)
Definition read_to_end {A : Type} (reader : Reader A) (buffer : bytes) : result A :=
  match reader buffer with
  | Ok (value, []) => Ok value
  | Ok (_, _ :: _) => Err TrailingBytes
  | Err e => Err e
  end.

Definition wf_length {A : Type} (l : list A) : bool :=
  Z.of_nat (List.length l) <? 2 ^ 32.

Definition wf_string (s : string) : bool :=
  wf_length (list_byte_of_string s).

(** ** Run-time values of the host language

    [functionCall] receives [args: Uint8Array | object] and inspects its
    [byteLength] and [length] properties; the value it stores is whatever
    the test selects.  An argument is modelled by what the test and the
    codec can observe of it: a byte array, an array, or a plain object with
    its own properties in insertion order.  A property holds a primitive
    value or a reference to some other object, compared by identity.
    Numbers are the integers; [NaN], the one number that differs from
    itself, is not represented. *)
Inductive JsValue : Type :=
| JsUndefined
| JsNull
| JsBoolean (b : bool)
| JsNumber (n : Z)
| JsString (s : string)
| JsReference (address : nat).

Inductive JsObject : Type :=
| Uint8Array (contents : bytes)
| JsArray (elements : list JsValue)
| PlainObject (properties : list (string * JsValue)).

Definition JsValue_eq_dec (a b : JsValue) : {a = b} + {a <> b}.
Proof.
  decide equality.
  - apply Bool.bool_dec.
  - apply Z.eq_dec.
  - apply string_dec.
  - apply Nat.eq_dec.
Defined.

(** [a === b] *)
Definition strict_equals (a b : JsValue) : bool :=
  if JsValue_eq_dec a b then true else false.

Fixpoint own_property (name : string) (properties : list (string * JsValue)) : JsValue :=
  match properties with
  | [] => JsUndefined
  | (key, value) :: rest =>
      if String.eqb key name then value else own_property name rest
  end.

(** [args.byteLength] *)
Definition args_byteLength (args : JsObject) : JsValue :=
  match args with
  | Uint8Array contents => JsNumber (Z.of_nat (List.length contents))
  | JsArray _ => JsUndefined
  | PlainObject properties => own_property "byteLength" properties
  end.

(** [args.length] *)
Definition args_length (args : JsObject) : JsValue :=
  match args with
  | Uint8Array contents => JsNumber (Z.of_nat (List.length contents))
  | JsArray elements => JsNumber (Z.of_nat (List.length elements))
  | PlainObject properties => own_property "length" properties
  end.

(** ** The data model

    One module per class: the record of its fields, then the entry of the
    class in [SCHEMA] as a writer and a reader that take the fields in the
    order of the entry, then the well-formedness of a value of the class. *)

(** Modelled from the spec: [PublicKey] and [KeyType] of [utils/key_pair],
    after the data model: a key type held in a [u8] and 32 bytes. *)
Module PublicKey.
Record t : Type := mk { keyType : Z; data : bytes }.

Definition write (x : t) : Writer :=
  writeU8 (keyType x) +++
  writeFixedArray 32 (data x).

Definition read : Reader t :=
  (keyType <- readU8 ;;
   data <- readFixedArray 32 ;;
   ret (mk keyType data))%reader.

Definition wf (x : t) : bool :=
  fits 1 (keyType x) && Nat.eqb (List.length (data x)) 32.
End PublicKey.

Module Signature.
Record t : Type := mk { keyType : Z; data : bytes }.

Definition write (x : t) : Writer :=
  writeU8 (keyType x) +++
  writeFixedArray 64 (data x).

Definition read : Reader t :=
  (keyType <- readU8 ;;
   data <- readFixedArray 64 ;;
   ret (mk keyType data))%reader.

Definition wf (x : t) : bool :=
  fits 1 (keyType x) && Nat.eqb (List.length (data x)) 64.
End Signature.

Module FunctionCallPermission.
Record t : Type := mk {
  allowance : option Z;
  receiverId : string;
  methodNames : list string
}.

Definition write (x : t) : Writer :=
  writeOption writeU128 (allowance x) +++
  writeString (receiverId x) +++
  writeArray writeString (methodNames x).

Definition read : Reader t :=
  (allowance <- readOption readU128 ;;
   receiverId <- readString ;;
   methodNames <- readArray readString ;;
   ret (mk allowance receiverId methodNames))%reader.

Definition wf (x : t) : bool :=
  match allowance x with
  | Some a => fits 16 a
  | None => true
  end &&
  wf_string (receiverId x) &&
  wf_length (methodNames x) &&
  forallb wf_string (methodNames x).
End FunctionCallPermission.

Module FullAccessPermission.
Record t : Type := mk { }.

Definition write (x : t) : Writer := Ok [].

Definition read : Reader t := ret mk.
End FullAccessPermission.

(** Modelled from the spec: the base classes [Assignable] and [Enum] of
    [utils/enums].  An [Assignable] is built from the record of its fields;
    an [Enum] holds exactly one populated alternative, so it is an
    inductive type with one constructor per field, and [enum] is the name
    of the populated field. *)
Module AccessKeyPermission.
Inductive t : Type :=
| functionCall (x : FunctionCallPermission.t)
| fullAccess (x : FullAccessPermission.t).

Definition enum (p : t) : string :=
  match p with
  | functionCall _ => "functionCall"
  | fullAccess _ => "fullAccess"
  end.

Definition names : list string := ["functionCall"; "fullAccess"].

Definition write (p : t) : Writer :=
  writeEnum names (enum p)
    match p with
    | functionCall x => FunctionCallPermission.write x
    | fullAccess x => FullAccessPermission.write x
    end.

Definition values : list (string * Reader t) :=
  [ ("functionCall", (x <- FunctionCallPermission.read ;; ret (functionCall x))%reader);
    ("fullAccess", (x <- FullAccessPermission.read ;; ret (fullAccess x))%reader) ].

Definition read : Reader t := readEnum values.

Definition wf (p : t) : bool :=
  match p with
  | functionCall x => FunctionCallPermission.wf x
  | fullAccess _ => true
  end.
End AccessKeyPermission.

Module AccessKey.
Record t : Type := mk { nonce : Z; permission : AccessKeyPermission.t }.

Definition write (x : t) : Writer :=
  writeU64 (nonce x) +++
  AccessKeyPermission.write (permission x).

Definition read : Reader t :=
  (nonce <- readU64 ;;
   permission <- AccessKeyPermission.read ;;
   ret (mk nonce permission))%reader.

Definition wf (x : t) : bool :=
  fits 8 (nonce x) && AccessKeyPermission.wf (permission x).
End AccessKey.

Definition fullAccessKey : AccessKey.t :=
  AccessKey.mk 0 (AccessKeyPermission.fullAccess FullAccessPermission.mk).

Definition functionCallAccessKey (receiverId : string) (methodNames : list string)
    (allowance : option Z) : AccessKey.t :=
  AccessKey.mk 0
    (AccessKeyPermission.functionCall
       (FunctionCallPermission.mk allowance receiverId methodNames)).

(** *** Actions *)

Module CreateAccount.
Record t : Type := mk { }.

Definition write (x : t) : Writer := Ok [].

Definition read : Reader t := ret mk.
End CreateAccount.

Module DeployContract.
Record t : Type := mk { code : bytes }.

Definition write (x : t) : Writer :=
  write_u8_array (code x).

Definition read : Reader t :=
  (code <- read_u8_array ;; ret (mk code))%reader.

Definition wf (x : t) : bool := wf_length (code x).
End DeployContract.

(** [args] is declared [Uint8Array]; [functionCall] stores there the value
    chosen by its [stringify] argument, or its [args] argument itself, so
    the field holds any argument object.  Only a byte array has an encoding
    as the [['u8']] of the schema. *)
Module FunctionCall.
Record t : Type := mk {
  methodName : string;
  args : JsObject;
  gas : Z;
  deposit : Z
}.

Definition write_args (args : JsObject) : Writer :=
  match args with
  | Uint8Array contents => write_u8_array contents
  | _ => Err TypeError
  end.

Definition write (x : t) : Writer :=
  writeString (methodName x) +++
  write_args (args x) +++
  writeU64 (gas x) +++
  writeU128 (deposit x).

Definition read : Reader t :=
  (methodName <- readString ;;
   args <- read_u8_array ;;
   gas <- readU64 ;;
   deposit <- readU128 ;;
   ret (mk methodName (Uint8Array args) gas deposit))%reader.

Definition wf (x : t) : bool :=
  wf_string (methodName x) &&
  match args x with
  | Uint8Array contents => wf_length contents
  | _ => false
  end &&
  fits 8 (gas x) &&
  fits 16 (deposit x).
End FunctionCall.

Module Transfer.
Record t : Type := mk { deposit : Z }.

Definition write (x : t) : Writer :=
  writeU128 (deposit x).

Definition read : Reader t :=
  (deposit <- readU128 ;; ret (mk deposit))%reader.

Definition wf (x : t) : bool := fits 16 (deposit x).
End Transfer.

Module Stake.
Record t : Type := mk { stake : Z; publicKey : PublicKey.t }.

Definition write (x : t) : Writer :=
  writeU128 (stake x) +++
  PublicKey.write (publicKey x).

Definition read : Reader t :=
  (stake <- readU128 ;;
   publicKey <- PublicKey.read ;;
   ret (mk stake publicKey))%reader.

Definition wf (x : t) : bool :=
  fits 16 (stake x) && PublicKey.wf (publicKey x).
End Stake.

Module AddKey.
Record t : Type := mk { publicKey : PublicKey.t; accessKey : AccessKey.t }.

Definition write (x : t) : Writer :=
  PublicKey.write (publicKey x) +++
  AccessKey.write (accessKey x).

Definition read : Reader t :=
  (publicKey <- PublicKey.read ;;
   accessKey <- AccessKey.read ;;
   ret (mk publicKey accessKey))%reader.

Definition wf (x : t) : bool :=
  PublicKey.wf (publicKey x) && AccessKey.wf (accessKey x).
End AddKey.

Module DeleteKey.
Record t : Type := mk { publicKey : PublicKey.t }.

Definition write (x : t) : Writer :=
  PublicKey.write (publicKey x).

Definition read : Reader t :=
  (publicKey <- PublicKey.read ;; ret (mk publicKey))%reader.

Definition wf (x : t) : bool := PublicKey.wf (publicKey x).
End DeleteKey.

Module DeleteAccount.
Record t : Type := mk { beneficiaryId : string }.

Definition write (x : t) : Writer :=
  writeString (beneficiaryId x).

Definition read : Reader t :=
  (beneficiaryId <- readString ;; ret (mk beneficiaryId))%reader.

Definition wf (x : t) : bool := wf_string (beneficiaryId x).
End DeleteAccount.

(** [NonDelegateAction], [DelegateAction] and [SignedDelegateAction] hold
    actions and are held by the [delegate] field of [Action]: they are
    parameterised by the type of actions, and [Action] closes the knot.
    Their writers, readers and well-formedness take those of the actions. *)
Module NonDelegateAction.
Record t (A : Type) : Type := mk { action : A }.
Arguments mk {A} action.
Arguments action {A} t.

Definition write {A : Type} (write_Action : A -> Writer) (x : t A) : Writer :=
  write_Action (action x).

Definition read {A : Type} (read_Action : Reader A) : Reader (t A) :=
  (action <- read_Action ;; ret (mk action))%reader.

Definition wf {A : Type} (wf_Action : A -> bool) (x : t A) : bool :=
  wf_Action (action x).
End NonDelegateAction.

Module DelegateAction.
Record t (A : Type) : Type := mk {
  senderId : string;
  receiverId : string;
  actions : list (NonDelegateAction.t A);
  nonce : Z;
  blockHash : bytes;
  publicKey : PublicKey.t
}.
Arguments mk {A} senderId receiverId actions nonce blockHash publicKey.
Arguments senderId {A} t.
Arguments receiverId {A} t.
Arguments actions {A} t.
Arguments nonce {A} t.
Arguments blockHash {A} t.
Arguments publicKey {A} t.

Definition write {A : Type} (write_Action : A -> Writer) (x : t A) : Writer :=
  writeString (senderId x) +++
  writeString (receiverId x) +++
  writeArray (NonDelegateAction.write write_Action) (actions x) +++
  writeU64 (nonce x) +++
  writeFixedArray 32 (blockHash x) +++
  PublicKey.write (publicKey x).

Definition read {A : Type} (read_Action : Reader A) : Reader (t A) :=
  (senderId <- readString ;;
   receiverId <- readString ;;
   actions <- readArray (NonDelegateAction.read read_Action) ;;
   nonce <- readU64 ;;
   blockHash <- readFixedArray 32 ;;
   publicKey <- PublicKey.read ;;
   ret (mk senderId receiverId actions nonce blockHash publicKey))%reader.

Definition wf {A : Type} (wf_Action : A -> bool) (x : t A) : bool :=
  wf_string (senderId x) &&
  wf_string (receiverId x) &&
  wf_length (actions x) &&
  forallb (NonDelegateAction.wf wf_Action) (actions x) &&
  fits 8 (nonce x) &&
  Nat.eqb (List.length (blockHash x)) 32 &&
  PublicKey.wf (publicKey x).
End DelegateAction.

Module SignedDelegateAction.
Record t (A : Type) : Type := mk {
  delegateAction : DelegateAction.t A;
  signature : Signature.t
}.
Arguments mk {A} delegateAction signature.
Arguments delegateAction {A} t.
Arguments signature {A} t.

Definition write {A : Type} (write_Action : A -> Writer) (x : t A) : Writer :=
  DelegateAction.write write_Action (delegateAction x) +++
  Signature.write (signature x).

Definition read {A : Type} (read_Action : Reader A) : Reader (t A) :=
  (delegateAction <- DelegateAction.read read_Action ;;
   signature <- Signature.read ;;
   ret (mk delegateAction signature))%reader.

Definition wf {A : Type} (wf_Action : A -> bool) (x : t A) : bool :=
  DelegateAction.wf wf_Action (delegateAction x) &&
  Signature.wf (signature x).
End SignedDelegateAction.

(** The valid transaction actions.  The recursion of the reader follows the
    nesting of delegate actions in the input, which is not a subterm of
    anything: it is bounded by [fuel], and [deserialize] below gives it
    more than any input can use (an action takes at least one byte). *)
Module Action.
Inductive t : Type :=
| createAccount (x : CreateAccount.t)
| deployContract (x : DeployContract.t)
| functionCall (x : FunctionCall.t)
| transfer (x : Transfer.t)
| stake (x : Stake.t)
| addKey (x : AddKey.t)
| deleteKey (x : DeleteKey.t)
| deleteAccount (x : DeleteAccount.t)
| delegate (x : SignedDelegateAction.t t).

Definition enum (a : t) : string :=
  match a with
  | createAccount _ => "createAccount"
  | deployContract _ => "deployContract"
  | functionCall _ => "functionCall"
  | transfer _ => "transfer"
  | stake _ => "stake"
  | addKey _ => "addKey"
  | deleteKey _ => "deleteKey"
  | deleteAccount _ => "deleteAccount"
  | delegate _ => "delegate"
  end.

Definition names : list string :=
  [ "createAccount"; "deployContract"; "functionCall"; "transfer"; "stake";
    "addKey"; "deleteKey"; "deleteAccount"; "delegate" ].

Fixpoint write (a : t) : Writer :=
  writeEnum names (enum a)
    match a with
    | createAccount x => CreateAccount.write x
    | deployContract x => DeployContract.write x
    | functionCall x => FunctionCall.write x
    | transfer x => Transfer.write x
    | stake x => Stake.write x
    | addKey x => AddKey.write x
    | deleteKey x => DeleteKey.write x
    | deleteAccount x => DeleteAccount.write x
    | delegate x => SignedDelegateAction.write write x
    end.

Definition values (read_Action : Reader t) : list (string * Reader t) :=
  [ ("createAccount", (x <- CreateAccount.read ;; ret (createAccount x))%reader);
    ("deployContract", (x <- DeployContract.read ;; ret (deployContract x))%reader);
    ("functionCall", (x <- FunctionCall.read ;; ret (functionCall x))%reader);
    ("transfer", (x <- Transfer.read ;; ret (transfer x))%reader);
    ("stake", (x <- Stake.read ;; ret (stake x))%reader);
    ("addKey", (x <- AddKey.read ;; ret (addKey x))%reader);
    ("deleteKey", (x <- DeleteKey.read ;; ret (deleteKey x))%reader);
    ("deleteAccount", (x <- DeleteAccount.read ;; ret (deleteAccount x))%reader);
    ("delegate",
     (x <- SignedDelegateAction.read read_Action ;; ret (delegate x))%reader) ].

Fixpoint read (fuel : nat) : Reader t :=
  match fuel with
  | O => fail TruncatedInput
  | S fuel' => readEnum (values (read fuel'))
  end.

Fixpoint wf (a : t) : bool :=
  match a with
  | createAccount _ => true
  | deployContract x => DeployContract.wf x
  | functionCall x => FunctionCall.wf x
  | transfer x => Transfer.wf x
  | stake x => Stake.wf x
  | addKey x => AddKey.wf x
  | deleteKey x => DeleteKey.wf x
  | deleteAccount x => DeleteAccount.wf x
  | delegate x => SignedDelegateAction.wf wf x
  end.

(** The nesting depth of delegate actions. *)
Fixpoint depth (a : t) : nat :=
  match a with
  | delegate x =>
      S (fold_right Nat.max O
           (map (fun n => depth (NonDelegateAction.action n))
              (DelegateAction.actions (SignedDelegateAction.delegateAction x))))
  | _ => 1%nat
  end.
End Action.

(** *** Transactions

    [signerId] is declared [string]; the build-then-sign form of
    [signTransaction] stores there its optional [accountId] argument as it
    is, so the field holds a string or [undefined] ([None]).  Only a string
    has an encoding. *)
Module Transaction.
Record t : Type := mk {
  signerId : option string;
  publicKey : PublicKey.t;
  nonce : Z;
  receiverId : string;
  actions : list Action.t;
  blockHash : bytes
}.

Definition write_signerId (signerId : option string) : Writer :=
  match signerId with
  | Some str => writeString str
  | None => Err TypeError
  end.

Definition write (x : t) : Writer :=
  write_signerId (signerId x) +++
  PublicKey.write (publicKey x) +++
  writeU64 (nonce x) +++
  writeString (receiverId x) +++
  writeFixedArray 32 (blockHash x) +++
  writeArray Action.write (actions x).

Definition read (fuel : nat) : Reader t :=
  (signerId <- readString ;;
   publicKey <- PublicKey.read ;;
   nonce <- readU64 ;;
   receiverId <- readString ;;
   blockHash <- readFixedArray 32 ;;
   actions <- readArray (Action.read fuel) ;;
   ret (mk (Some signerId) publicKey nonce receiverId actions blockHash))%reader.

Definition wf (x : t) : bool :=
  match signerId x with
  | Some str => wf_string str
  | None => false
  end &&
  PublicKey.wf (publicKey x) &&
  fits 8 (nonce x) &&
  wf_string (receiverId x) &&
  wf_length (actions x) &&
  forallb Action.wf (actions x) &&
  Nat.eqb (List.length (blockHash x)) 32.
End Transaction.

Module SignedTransaction.
Record t : Type := mk {
  transaction : Transaction.t;
  signature : Signature.t
}.

Definition write (x : t) : Writer :=
  Transaction.write (transaction x) +++
  Signature.write (signature x).

Definition read (fuel : nat) : Reader t :=
  (transaction <- Transaction.read fuel ;;
   signature <- Signature.read ;;
   ret (mk transaction signature))%reader.

Definition wf (x : t) : bool :=
  Transaction.wf (transaction x) && Signature.wf (signature x).
End SignedTransaction.

(** ** The schema

    [SCHEMA] maps each class to the layout of its instances.  The writer
    and the reader of a class, defined with the class above, take its
    fields in the order of its entry and with the wire types of its entry;
    the entries keep the order of the table.  The readers of the classes
    that hold actions take the bound on the nesting of delegate actions. *)
Module Class.
Inductive t : Type :=
| Signature
| SignedTransaction
| Transaction
| PublicKey
| AccessKey
| AccessKeyPermission
| FunctionCallPermission
| FullAccessPermission
| Action
| CreateAccount
| DeployContract
| FunctionCall
| Transfer
| Stake
| AddKey
| DeleteKey
| DeleteAccount
| NonDelegateAction
| DelegateAction
| SignedDelegateAction.
End Class.

Definition instance (c : Class.t) : Type :=
  match c with
  | Class.Signature => Signature.t
  | Class.SignedTransaction => SignedTransaction.t
  | Class.Transaction => Transaction.t
  | Class.PublicKey => PublicKey.t
  | Class.AccessKey => AccessKey.t
  | Class.AccessKeyPermission => AccessKeyPermission.t
  | Class.FunctionCallPermission => FunctionCallPermission.t
  | Class.FullAccessPermission => FullAccessPermission.t
  | Class.Action => Action.t
  | Class.CreateAccount => CreateAccount.t
  | Class.DeployContract => DeployContract.t
  | Class.FunctionCall => FunctionCall.t
  | Class.Transfer => Transfer.t
  | Class.Stake => Stake.t
  | Class.AddKey => AddKey.t
  | Class.DeleteKey => DeleteKey.t
  | Class.DeleteAccount => DeleteAccount.t
  | Class.NonDelegateAction => NonDelegateAction.t Action.t
  | Class.DelegateAction => DelegateAction.t Action.t
  | Class.SignedDelegateAction => SignedDelegateAction.t Action.t
  end.

Record Layout (A : Type) : Type := layout {
  writer : A -> Writer;
  reader : nat -> Reader A
}.
Arguments layout {A} writer reader.
Arguments writer {A} l.
Arguments reader {A} l.

Definition SCHEMA (c : Class.t) : Layout (instance c) :=
  match c as c' return Layout (instance c') with
  | Class.Signature => layout Signature.write (fun _ => Signature.read)
  | Class.SignedTransaction => layout SignedTransaction.write SignedTransaction.read
  | Class.Transaction => layout Transaction.write Transaction.read
  | Class.PublicKey => layout PublicKey.write (fun _ => PublicKey.read)
  | Class.AccessKey => layout AccessKey.write (fun _ => AccessKey.read)
  | Class.AccessKeyPermission =>
      layout AccessKeyPermission.write (fun _ => AccessKeyPermission.read)
  | Class.FunctionCallPermission =>
      layout FunctionCallPermission.write (fun _ => FunctionCallPermission.read)
  | Class.FullAccessPermission =>
      layout FullAccessPermission.write (fun _ => FullAccessPermission.read)
  | Class.Action => layout Action.write Action.read
  | Class.CreateAccount => layout CreateAccount.write (fun _ => CreateAccount.read)
  | Class.DeployContract => layout DeployContract.write (fun _ => DeployContract.read)
  | Class.FunctionCall => layout FunctionCall.write (fun _ => FunctionCall.read)
  | Class.Transfer => layout Transfer.write (fun _ => Transfer.read)
  | Class.Stake => layout Stake.write (fun _ => Stake.read)
  | Class.AddKey => layout AddKey.write (fun _ => AddKey.read)
  | Class.DeleteKey => layout DeleteKey.write (fun _ => DeleteKey.read)
  | Class.DeleteAccount => layout DeleteAccount.write (fun _ => DeleteAccount.read)
  | Class.NonDelegateAction =>
      layout (NonDelegateAction.write Action.write)
        (fun fuel => NonDelegateAction.read (Action.read fuel))
  | Class.DelegateAction =>
      layout (DelegateAction.write Action.write)
        (fun fuel => DelegateAction.read (Action.read fuel))
  | Class.SignedDelegateAction =>
      layout (SignedDelegateAction.write Action.write)
        (fun fuel => SignedDelegateAction.read (Action.read fuel))
  end.

(** [serialize(SCHEMA, obj)], where [c] is the class of [obj]. *)
Definition serialize (c : Class.t) (obj : instance c) : result bytes :=
  writer (SCHEMA c) obj.

(** [deserialize(SCHEMA, classType, buffer)].  Delegate actions cannot
    nest deeper than the buffer is long. *)
Definition deserialize (c : Class.t) (buffer : bytes) : result (instance c) :=
  read_to_end (reader (SCHEMA c) (List.length buffer)) buffer.

Definition Transaction_encode (this : Transaction.t) : result bytes :=
  serialize Class.Transaction this.

Definition Transaction_decode (buffer : bytes) : result Transaction.t :=
  deserialize Class.Transaction buffer.

Definition SignedTransaction_encode (this : SignedTransaction.t) : result bytes :=
  serialize Class.SignedTransaction this.

Definition SignedTransaction_decode (buffer : bytes) : result SignedTransaction.t :=
  deserialize Class.SignedTransaction buffer.

(** The well-formed instances of a class: every fixed-width field has its
    exact width, every unsigned integer fits its declared width, every
    length fits the 4-byte prefix, and every field holds a value of its
    declared type. *)
Definition well_formed (c : Class.t) : instance c -> bool :=
  match c as c' return instance c' -> bool with
  | Class.Signature => Signature.wf
  | Class.SignedTransaction => SignedTransaction.wf
  | Class.Transaction => Transaction.wf
  | Class.PublicKey => PublicKey.wf
  | Class.AccessKey => AccessKey.wf
  | Class.AccessKeyPermission => AccessKeyPermission.wf
  | Class.FunctionCallPermission => FunctionCallPermission.wf
  | Class.FullAccessPermission => fun _ => true
  | Class.Action => Action.wf
  | Class.CreateAccount => fun _ => true
  | Class.DeployContract => DeployContract.wf
  | Class.FunctionCall => FunctionCall.wf
  | Class.Transfer => Transfer.wf
  | Class.Stake => Stake.wf
  | Class.AddKey => AddKey.wf
  | Class.DeleteKey => DeleteKey.wf
  | Class.DeleteAccount => DeleteAccount.wf
  | Class.NonDelegateAction => NonDelegateAction.wf Action.wf
  | Class.DelegateAction => DelegateAction.wf Action.wf
  | Class.SignedDelegateAction => SignedDelegateAction.wf Action.wf
  end.

(** ** SHA-256

    [sha256.sha256.array] of the [js-sha256] package: the hash function of
    FIPS 180-4 on a sequence of bytes.  A 32-bit word is a [Z] reduced
    modulo [2 ^ 32] after every addition and left shift. *)
Module SHA256.
Definition word (x : Z) : Z := x mod 2 ^ 32.

Definition add (x y : Z) : Z := word (x + y).

Definition rotr (n x : Z) : Z :=
  Z.lor (Z.shiftr x n) (word (Z.shiftl x (32 - n))).

Definition Ch (x y z : Z) : Z := Z.lxor (Z.land x y) (Z.ldiff z x).

Definition Maj (x y z : Z) : Z :=
  Z.lxor (Z.lxor (Z.land x y) (Z.land x z)) (Z.land y z).

Definition Sigma0 (x : Z) : Z := Z.lxor (Z.lxor (rotr 2 x) (rotr 13 x)) (rotr 22 x).

Definition Sigma1 (x : Z) : Z := Z.lxor (Z.lxor (rotr 6 x) (rotr 11 x)) (rotr 25 x).

Definition sigma0 (x : Z) : Z := Z.lxor (Z.lxor (rotr 7 x) (rotr 18 x)) (Z.shiftr x 3).

Definition sigma1 (x : Z) : Z := Z.lxor (Z.lxor (rotr 17 x) (rotr 19 x)) (Z.shiftr x 10).

(** The largest [r] below [2 ^ bits] with [r ^ 3 <= n], one bit at a time. *)
Fixpoint cube_root (bits : nat) (n r : Z) : Z :=
  match bits with
  | O => r
  | S b =>
      let c := r + 2 ^ Z.of_nat b in
      if c * c * c <=? n then cube_root b n c else cube_root b n r
  end.

Definition primes : list Z :=
  [ 2; 3; 5; 7; 11; 13; 17; 19; 23; 29; 31; 37; 41; 43; 47; 53;
    59; 61; 67; 71; 73; 79; 83; 89; 97; 101; 103; 107; 109; 113; 127; 131;
    137; 139; 149; 151; 157; 163; 167; 173; 179; 181; 191; 193; 197; 199;
    211; 223; 227; 229; 233; 239; 241; 251; 257; 263; 269; 271; 277; 281;
    283; 293; 307; 311 ].

(** The round constants: the first 32 bits of the fractional parts of the
    cube roots of the first 64 primes. *)
Definition K : list Z :=
  Eval vm_compute in map (fun p => word (cube_root 36 (p * 2 ^ 96) 0)) primes.

(** The initial hash value: the first 32 bits of the fractional parts of
    the square roots of the first 8 primes. *)
Definition H0 : list Z :=
  Eval vm_compute in map (fun p => word (Z.sqrt (p * 2 ^ 64))) (firstn 8 primes).

Fixpoint be_bytes (width : nat) (value : Z) : bytes :=
  match width with
  | O => []
  | S w => byte_of_Z (Z.shiftr value (8 * Z.of_nat w)) :: be_bytes w value
  end.

Definition be_word (b : bytes) : Z :=
  fold_left (fun acc x => acc * 256 + Z_of_byte x) b 0.

(** The message, the byte [0x80], zeros up to 56 modulo 64, then the
    length of the message in bits on 8 bytes. *)
Definition pad (message : bytes) : bytes :=
  let len := Z.of_nat (List.length message) in
  let zeros := Z.to_nat ((55 - len) mod 64) in
  message ++ [x80] ++ repeat x00 zeros ++ be_bytes 8 (8 * len).

Fixpoint chunks (count size : nat) (b : bytes) : list bytes :=
  match count with
  | O => []
  | S c => firstn size b :: chunks c size (skipn size b)
  end.

(** The message schedule; [w] holds the words computed so far, the most
    recent first. *)
Fixpoint schedule (n : nat) (w : list Z) : list Z :=
  match n with
  | O => w
  | S n' =>
      let next :=
        add (add (sigma1 (nth 1 w 0)) (nth 6 w 0))
            (add (sigma0 (nth 14 w 0)) (nth 15 w 0)) in
      schedule n' (next :: w)
  end.

Definition round (s : list Z) (kw : Z * Z) : list Z :=
  match s with
  | [a; b; c; d; e; f; g; h] =>
      let t1 := add (add (add h (Sigma1 e)) (add (Ch e f g) (fst kw))) (snd kw) in
      let t2 := add (Sigma0 a) (Maj a b c) in
      [add t1 t2; a; b; c; add d t1; e; f; g]
  | _ => s
  end.

Definition compress (h : list Z) (block : bytes) : list Z :=
  let w16 := map be_word (chunks 16 4 block) in
  let w := rev (schedule 48 (rev w16)) in
  let s := fold_left round (combine K w) h in
  map (fun p => add (fst p) (snd p)) (combine h s).

Definition digest (message : bytes) : bytes :=
  let padded := pad message in
  let blocks := chunks (Nat.div (List.length padded) 64) 64 padded in
  flat_map (be_bytes 4) (fold_left compress blocks H0).

(** Lower-case hexadecimal, to compare a digest with a published one. *)
Fixpoint hex (b : bytes) : string :=
  match b with
  | [] => ""
  | x :: rest =>
      let digit k :=
        match nth_error (list_ascii_of_string "0123456789abcdef") (Z.to_nat k) with
        | Some c => c
        | None => "?"%char
        end in
      String (digit (Z_of_byte x / 16)) (String (digit (Z_of_byte x mod 16)) (hex rest))
  end.
End SHA256.

Definition sha256_array (message : bytes) : bytes := SHA256.digest message.

(** ** The action builders *)

Definition createAccount : Action.t :=
  Action.createAccount CreateAccount.mk.

Definition deployContract (code : bytes) : Action.t :=
  Action.deployContract (DeployContract.mk code).

(** [Buffer.from(str)]: the UTF-8 bytes of a string. *)
Definition Buffer_from (str : string) : bytes := list_byte_of_string str.

Section HostLanguage.

(** [JSON.stringify], a built-in of the host language. *)
Variable JSON_stringify : JsObject -> string.

Definition stringifyJsonOrBytes (args : JsObject) : JsObject :=
  let isUint8Array :=
    negb (strict_equals (args_byteLength args) JsUndefined) &&
    strict_equals (args_byteLength args) (args_length args) in
  let serializedArgs :=
    if isUint8Array then args else Uint8Array (Buffer_from (JSON_stringify args)) in
  serializedArgs.

End HostLanguage.

(** [stringify] defaults to [stringifyJsonOrBytes] and [jsContract] to
    [false]. *)
Definition functionCall (methodName : string) (args : JsObject) (gas deposit : Z)
    (stringify : JsObject -> JsObject) (jsContract : bool) : Action.t :=
  if jsContract then
    Action.functionCall (FunctionCall.mk methodName args gas deposit)
  else
    Action.functionCall (FunctionCall.mk methodName (stringify args) gas deposit).

Definition transfer (deposit : Z) : Action.t :=
  Action.transfer (Transfer.mk deposit).

Definition stake (stake : Z) (publicKey : PublicKey.t) : Action.t :=
  Action.stake (Stake.mk stake publicKey).

Definition addKey (publicKey : PublicKey.t) (accessKey : AccessKey.t) : Action.t :=
  Action.addKey (AddKey.mk publicKey accessKey).

Definition deleteKey (publicKey : PublicKey.t) : Action.t :=
  Action.deleteKey (DeleteKey.mk publicKey).

Definition deleteAccount (beneficiaryId : string) : Action.t :=
  Action.deleteAccount (DeleteAccount.mk beneficiaryId).

(** ** The local signing key

    Modelled from the spec: [KeyPair] of [utils/key_pair], the local
    signing key with its two synchronous operations [getPublicKey] and
    [sign].  The answer to a signing request is the object whose
    [signature] field the pipeline reads. *)
Module KeyPairSignature.
Record t : Type := mk { signature : bytes }.
End KeyPairSignature.

Module KeyPair.
Record t : Type := mk {
  getPublicKey : PublicKey.t;
  sign : bytes -> KeyPairSignature.t
}.
End KeyPair.

Definition signDelegateActionData (delegateAction : DelegateAction.t Action.t)
    (keyPair : KeyPair.t) : result Signature.t :=
  (message <- serialize Class.DelegateAction delegateAction ;;
   let hash := sha256_array message in
   let signature := KeyPair.sign keyPair hash in
   Ok (Signature.mk (PublicKey.keyType (KeyPair.getPublicKey keyPair))
         (KeyPairSignature.signature signature)))%result.

Definition delegateAction (senderId receiverId : string) (actions : list Action.t)
    (nonce : Z) (blockHash : bytes) (keyPair : KeyPair.t) : result Action.t :=
  let publicKey := KeyPair.getPublicKey keyPair in
  let nonDelegateActions := map (fun action => NonDelegateAction.mk action) actions in
  let delegateAction :=
    DelegateAction.mk senderId receiverId nonDelegateActions nonce blockHash publicKey in
  (signature <- signDelegateActionData delegateAction keyPair ;;
   Ok (Action.delegate (SignedDelegateAction.mk delegateAction signature)))%result.

(** ** The signing pipeline

    Modelled from the spec: [Signer] of [signer], an injected capability
    with two asynchronous operations that may fail, [getPublicKey] and
    [signMessage], both with an optional account and network identifier.

    An asynchronous function is the tree of its awaited calls: it resolves
    to a value, rejects with an error, or awaits one operation of the
    signer and continues with the answer. *)
Inductive Async (A : Type) : Type :=
| Resolve (value : A)
| Reject (e : Error)
| Await_getPublicKey (accountId networkId : option string)
    (continuation : PublicKey.t -> Async A)
| Await_signMessage (message : bytes) (accountId networkId : option string)
    (continuation : KeyPairSignature.t -> Async A).
Arguments Resolve {A} value.
Arguments Reject {A} e.
Arguments Await_getPublicKey {A} accountId networkId continuation.
Arguments Await_signMessage {A} message accountId networkId continuation.

Fixpoint Async_bind {A B : Type} (m : Async A) (k : A -> Async B) : Async B :=
  match m with
  | Resolve value => k value
  | Reject e => Reject e
  | Await_getPublicKey accountId networkId continuation =>
      Await_getPublicKey accountId networkId
        (fun answer => Async_bind (continuation answer) k)
  | Await_signMessage message accountId networkId continuation =>
      Await_signMessage message accountId networkId
        (fun answer => Async_bind (continuation answer) k)
  end.

Declare Scope async_scope.
Delimit Scope async_scope with async.
Notation "x <- 'await' m ;; k" := (Async_bind m (fun x => k))
  (at level 61, m at next level, right associativity) : async_scope.

(** A synchronous computation that may throw, inside an asynchronous one. *)
Definition settle {A : Type} (r : result A) : Async A :=
  match r with
  | Ok value => Resolve value
  | Err e => Reject e
  end.

Definition signer_getPublicKey (accountId networkId : option string) : Async PublicKey.t :=
  Await_getPublicKey accountId networkId Resolve.

Definition signer_signMessage (message : bytes) (accountId networkId : option string)
  : Async KeyPairSignature.t :=
  Await_signMessage message accountId networkId Resolve.

Module Signer.
Record t : Type := mk {
  getPublicKey : option string -> option string -> result PublicKey.t;
  signMessage : bytes -> option string -> option string -> result KeyPairSignature.t
}.
End Signer.

(** An asynchronous function run to completion against a signer. *)
Fixpoint run {A : Type} (signer : Signer.t) (m : Async A) : result A :=
  match m with
  | Resolve value => Ok value
  | Reject e => Err e
  | Await_getPublicKey accountId networkId continuation =>
      match Signer.getPublicKey signer accountId networkId with
      | Ok answer => run signer (continuation answer)
      | Err e => Err e
      end
  | Await_signMessage message accountId networkId continuation =>
      match Signer.signMessage signer message accountId networkId with
      | Ok answer => run signer (continuation answer)
      | Err e => Err e
      end
  end.

(** The messages handed to [signMessage], in order, in a run against a
    signer. *)
Fixpoint signed_messages {A : Type} (signer : Signer.t) (m : Async A) : list bytes :=
  match m with
  | Resolve _ => []
  | Reject _ => []
  | Await_getPublicKey accountId networkId continuation =>
      match Signer.getPublicKey signer accountId networkId with
      | Ok answer => signed_messages signer (continuation answer)
      | Err _ => []
      end
  | Await_signMessage message accountId networkId continuation =>
      message ::
      match Signer.signMessage signer message accountId networkId with
      | Ok answer => signed_messages signer (continuation answer)
      | Err _ => []
      end
  end.

Definition createTransaction (signerId : option string) (publicKey : PublicKey.t)
    (receiverId : string) (nonce : Z) (actions : list Action.t) (blockHash : bytes)
  : Transaction.t :=
  Transaction.mk signerId publicKey nonce receiverId actions blockHash.

Definition signTransactionObject (transaction : Transaction.t)
    (accountId networkId : option string) : Async (bytes * SignedTransaction.t) :=
  (message <- await settle (serialize Class.Transaction transaction) ;;
   let hash := sha256_array message in
   signature <- await signer_signMessage message accountId networkId ;;
   let signedTx :=
     SignedTransaction.mk transaction
       (Signature.mk (PublicKey.keyType (Transaction.publicKey transaction))
          (KeyPairSignature.signature signature)) in
   Resolve (hash, signedTx))%async.

(** The two call shapes of [signTransaction], told apart in the source by
    the constructor of the first argument; the signer of either shape is
    the one the call is run against. *)
Inductive signTransaction_args : Type :=
| sign_transaction (transaction : Transaction.t) (accountId networkId : option string)
| sign_parts (receiverId : string) (nonce : Z) (actions : list Action.t)
    (blockHash : bytes) (accountId networkId : option string).

Definition signTransaction (args : signTransaction_args)
  : Async (bytes * SignedTransaction.t) :=
  match args with
  | sign_transaction transaction accountId networkId =>
      signTransactionObject transaction accountId networkId
  | sign_parts receiverId nonce actions blockHash accountId networkId =>
      (publicKey <- await signer_getPublicKey accountId networkId ;;
       let transaction :=
         createTransaction accountId publicKey receiverId nonce actions blockHash in
       signTransactionObject transaction accountId networkId)%async
  end.

(** ** Statements about the codec *)

(** [reader] undoes [writer] at [x], whatever follows in the input. *)
Definition round_trips {A : Type} (writer : A -> Writer) (reader : Reader A) (x : A) : Prop :=
  forall b rest, writer x = Ok b -> reader (b ++ rest) = Ok (x, rest).

Definition succeeds (w : Writer) : Prop := exists b, w = Ok b.

(** A reader never returns more input than it was given. *)
Definition shrinks {A : Type} (r : Reader A) : Prop :=
  forall input x rest, r input = Ok (x, rest) ->
    (List.length rest <= List.length input)%nat.

(** Two readers agree on every input of at most [n] bytes. *)
Definition agree_upto {A : Type} (n : nat) (r r' : Reader A) : Prop :=
  forall input, (List.length input <= n)%nat -> r input = r' input.

(** The index of each variant of [Action] as the specification lists them:
    0 = CreateAccount, 1 = DeployContract, 2 = FunctionCall, 3 = Transfer,
    4 = Stake, 5 = AddKey, 6 = DeleteKey, 7 = DeleteAccount, 8 = Delegate. *)
Definition declared_index (a : Action.t) : Z :=
  match a with
  | Action.createAccount _ => 0
  | Action.deployContract _ => 1
  | Action.functionCall _ => 2
  | Action.transfer _ => 3
  | Action.stake _ => 4
  | Action.addKey _ => 5
  | Action.deleteKey _ => 6
  | Action.deleteAccount _ => 7
  | Action.delegate _ => 8
  end.

(** The bytes of a transaction if its fields were written in the order in
    which the class declares them and the data model lists them, [actions]
    before [blockHash]; to be compared with the order of the schema. *)
Definition write_in_class_order (x : Transaction.t) : Writer :=
  Transaction.write_signerId (Transaction.signerId x) +++
  PublicKey.write (Transaction.publicKey x) +++
  writeU64 (Transaction.nonce x) +++
  writeString (Transaction.receiverId x) +++
  writeArray Action.write (Transaction.actions x) +++
  writeFixedArray 32 (Transaction.blockHash x).

(** The value stored in the [args] field of a function call action. *)
Definition stored_args (a : Action.t) : option JsObject :=
  match a with
  | Action.functionCall x => Some (FunctionCall.args x)
  | _ => None
  end.

(** The duck-typing test of [stringifyJsonOrBytes], as a proposition. *)
Definition looks_like_bytes (args : JsObject) : Prop :=
  args_byteLength args <> JsUndefined /\ args_byteLength args = args_length args.

Definition holds_delegate (actions : list Action.t) : Prop :=
  exists x, In (Action.delegate x) actions.

(** ** Sample values *)

Definition sample_publicKey : PublicKey.t := PublicKey.mk 0 (repeat x01 32).

Definition sample_blockHash : bytes := repeat xaa 32.

Definition sample_transaction : Transaction.t :=
  createTransaction (Some "alice.test") sample_publicKey "bob.test" 7
    [transfer 1000; createAccount] sample_blockHash.

(** A stub signer that answers every request with the same key and the
    same 64 bytes. *)
Definition sample_signer : Signer.t :=
  Signer.mk
    (fun _ _ => Ok sample_publicKey)
    (fun _ _ _ => Ok (KeyPairSignature.mk (repeat x07 64))).

(** A stub key pair whose signature is the message twice. *)
Definition sample_keyPair : KeyPair.t :=
  KeyPair.mk sample_publicKey
    (fun message => KeyPairSignature.mk (message ++ message)).

Definition sample_delegate : Action.t :=
  Action.delegate
    (SignedDelegateAction.mk
       (DelegateAction.mk "alice.test" "bob.test"
          [NonDelegateAction.mk (transfer 1); NonDelegateAction.mk createAccount]
          3 sample_blockHash sample_publicKey)
       (Signature.mk 0 (repeat x07 64))).

Definition sample_plain_object : JsObject :=
  PlainObject [("byteLength", JsNumber 3); ("length", JsNumber 3)].

Definition bytes_of (w : Writer) : bytes :=
  match w with
  | Ok b => b
  | Err _ => []
  end.

(** The encodings of the sample transaction and of the sample delegate
    action. *)
Definition sample_message : bytes :=
  Eval vm_compute in bytes_of (serialize Class.Transaction sample_transaction).

Definition sample_delegate_bytes : bytes :=
  Eval vm_compute in bytes_of (serialize Class.Action sample_delegate).

(** The action that [delegateAction] returns for the sample key pair. *)
Definition sample_signed_delegate : Action.t :=
  Eval vm_compute in
    match
      delegateAction "alice.test" "bob.test" [transfer 1; createAccount] 3
        sample_blockHash sample_keyPair
    with
    | Ok a => a
    | Err _ => createAccount
    end.

(** Every value that a reader returns satisfies [P]. *)
Definition yields {A : Type} (r : Reader A) (P : A -> Prop) : Prop :=
  forall input x rest, r input = Ok (x, rest) -> P x.

(** * Properties

    ** Bytes and little-endian integers *)

Lemma Z_of_byte_range (b : byte) : 0 <= Z_of_byte b < 256.
Proof.
  unfold Z_of_byte. pose proof (Byte.to_N_bounded b). lia.
Qed.

Lemma byte_of_Z_of_byte (b : byte) : byte_of_Z (Z_of_byte b) = b.
Proof.
  unfold byte_of_Z. rewrite Z.mod_small by apply Z_of_byte_range.
  unfold Z_of_byte. rewrite N2Z.id, Byte.of_to_N. reflexivity.
Qed.

Lemma Z_of_byte_of_Z (z : Z) : 0 <= z < 256 -> Z_of_byte (byte_of_Z z) = z.
Proof.
  intros Hz. unfold byte_of_Z, Z_of_byte. rewrite Z.mod_small by assumption.
  destruct (Byte.of_N (Z.to_N z)) as [b|] eqn:E.
  - apply Byte.to_of_N in E. rewrite E. lia.
  - apply Byte.of_N_None_iff in E. lia.
Qed.

Lemma length_toArray_le (width : nat) (v : Z) : List.length (toArray_le width v) = width.
Proof.
  revert v. induction width as [|w IH]; intros v; simpl; [reflexivity|].
  now rewrite IH.
Qed.

Lemma fromArray_toArray_le (width : nat) (v : Z) :
  0 <= v < 2 ^ (8 * Z.of_nat width) -> fromArray_le (toArray_le width v) = v.
Proof.
  revert v. induction width as [|w IH]; intros v Hv.
  - simpl in *. lia.
  - cbn [toArray_le fromArray_le].
    assert (Hp : 2 ^ (8 * Z.of_nat (S w)) = 256 * 2 ^ (8 * Z.of_nat w)).
    { replace (8 * Z.of_nat (S w)) with (8 + 8 * Z.of_nat w) by lia.
      rewrite Z.pow_add_r by lia. reflexivity. }
    rewrite Hp in Hv.
    rewrite Z_of_byte_of_Z by (apply Z.mod_pos_bound; lia).
    rewrite IH.
    + pose proof (Z.div_mod v 256). lia.
    + split; [apply Z.div_pos; lia|].
      apply Z.div_lt_upper_bound; lia.
Qed.

Lemma fits_range (width : nat) (v : Z) :
  fits width v = true <-> 0 <= v < 2 ^ (8 * Z.of_nat width).
Proof.
  unfold fits. rewrite andb_true_iff, Z.leb_le, Z.ltb_lt. reflexivity.
Qed.

Lemma writeUInt_Ok (width : nat) (v : Z) (b : bytes) :
  writeUInt width v = Ok b -> fits width v = true /\ b = toArray_le width v.
Proof.
  unfold writeUInt. destruct (fits width v); intros H; inversion H; auto.
Qed.

Lemma write_then_Ok (w1 w2 : Writer) (b : bytes) :
  w1 +++ w2 = Ok b -> exists b1 b2, w1 = Ok b1 /\ w2 = Ok b2 /\ b = b1 ++ b2.
Proof.
  unfold write_then. destruct w1 as [b1|]; [|discriminate].
  destruct w2 as [b2|]; [|discriminate].
  intros H. inversion H. eauto.
Qed.

Lemma readBuffer_app (b rest : bytes) :
  readBuffer (List.length b) (b ++ rest) = Ok (b, rest).
Proof.
  unfold readBuffer.
  replace (Nat.ltb _ _) with false.
  - rewrite firstn_app, Nat.sub_diag, firstn_all. simpl. rewrite app_nil_r.
    rewrite skipn_app, Nat.sub_diag, skipn_all. reflexivity.
  - symmetry. apply Nat.ltb_ge. rewrite length_app. lia.
Qed.

(** Reading a field after its bytes continues with the field and the rest
    of the input. *)
Lemma bind_round_trips {A B : Type} (w : A -> Writer) (r : Reader A) (k : A -> Reader B)
    (x : A) (b rest : bytes) :
  w x = Ok b -> round_trips w r x -> bind r k (b ++ rest) = k x rest.
Proof.
  intros E H. unfold bind. rewrite (H b rest E). reflexivity.
Qed.

Lemma round_trips_UInt (width : nat) (v : Z) : round_trips (writeUInt width) (readUInt width) v.
Proof.
  intros b rest E. apply writeUInt_Ok in E. destruct E as [Hf ->].
  unfold readUInt, bind.
  rewrite <- (length_toArray_le width v) at 1.
  rewrite readBuffer_app. unfold ret.
  rewrite fromArray_toArray_le by (apply fits_range; assumption). reflexivity.
Qed.

(** ** Readers undo writers *)

Create HintDb rt discriminated.

Lemma round_trips_U8 (v : Z) : round_trips writeU8 readU8 v.
Proof. apply round_trips_UInt. Qed.
Lemma round_trips_U32 (v : Z) : round_trips writeU32 readU32 v.
Proof. apply round_trips_UInt. Qed.
Lemma round_trips_U64 (v : Z) : round_trips writeU64 readU64 v.
Proof. apply round_trips_UInt. Qed.
Lemma round_trips_U128 (v : Z) : round_trips writeU128 readU128 v.
Proof. apply round_trips_UInt. Qed.

#[export] Hint Resolve round_trips_U8 round_trips_U32 round_trips_U64 round_trips_U128 : rt.

Ltac split_writes :=
  repeat match goal with
  | H : _ +++ _ = Ok _ |- _ =>
      let b1 := fresh "b" in
      let b2 := fresh "b" in
      let E1 := fresh "E" in
      let E2 := fresh "E" in
      apply write_then_Ok in H; destruct H as (b1 & b2 & E1 & E2 & ->)
  | H : Ok ?x = Ok ?y |- _ =>
      first [ is_var y; inversion H; subst y; clear H | inversion H ]
  end.

Ltac read_field :=
  match goal with
  | E : _ = Ok ?b |- bind _ _ (?b ++ _) = _ =>
      rewrite (bind_round_trips _ _ _ _ _ _ E) by auto with rt
  end.

Ltac round_trip :=
  let b := fresh "b" in
  let rest := fresh "rest" in
  let E := fresh "E" in
  intros b rest E; cbn beta delta [round_trips] in *;
  split_writes; rewrite <- ?app_assoc;
  repeat read_field.

Lemma round_trips_String (s : string) : round_trips writeString readString s.
Proof.
  intros b rest E. unfold writeString in E. split_writes.
  rewrite <- app_assoc.
  unfold readString. read_field.
  rewrite Nat2Z.id. unfold bind. rewrite readBuffer_app. unfold ret.
  rewrite string_of_list_byte_of_string. reflexivity.
Qed.

Lemma round_trips_FixedArray (len : nat) (array : bytes) :
  round_trips (writeFixedArray len) (readFixedArray len) array.
Proof.
  intros b rest E. unfold writeFixedArray in E.
  destruct (Nat.eqb (List.length array) len) eqn:Hl; [|discriminate].
  inversion E; subst b. apply Nat.eqb_eq in Hl. subst len.
  apply readBuffer_app.
Qed.

Lemma round_trips_all {A : Type} (w : A -> Writer) (r : Reader A) (array : list A) :
  Forall (round_trips w r) array ->
  round_trips (write_all w) (read_times (List.length array) r) array.
Proof.
  induction 1 as [|x l Hx Hl IH]; intros b rest E.
  - inversion E. reflexivity.
  - cbn [write_all fold_right] in E. fold (write_all w l) in E. split_writes.
    rewrite <- app_assoc. cbn [List.length read_times].
    read_field. read_field. reflexivity.
Qed.

Lemma round_trips_Array {A : Type} (w : A -> Writer) (r : Reader A) (array : list A) :
  Forall (round_trips w r) array -> round_trips (writeArray w) (readArray r) array.
Proof.
  intros H b rest E. unfold writeArray in E. split_writes.
  rewrite <- app_assoc. unfold readArray. read_field.
  rewrite Nat2Z.id. apply (round_trips_all w r array H); assumption.
Qed.

Lemma round_trips_Array_of {A : Type} (w : A -> Writer) (r : Reader A) :
  (forall x, round_trips w r x) -> forall array, round_trips (writeArray w) (readArray r) array.
Proof.
  intros H array. apply round_trips_Array. apply Forall_forall. auto.
Qed.

Lemma round_trips_Option {A : Type} (w : A -> Writer) (r : Reader A) (value : option A) :
  (forall x, round_trips w r x) -> round_trips (writeOption w) (readOption r) value.
Proof.
  intros H b rest E. destruct value as [v|]; cbn [writeOption] in E.
  - split_writes. rewrite <- app_assoc. unfold readOption. read_field.
    cbn. read_field. reflexivity.
  - unfold readOption. read_field. reflexivity.
Qed.

#[export] Hint Resolve round_trips_String round_trips_FixedArray round_trips_Array_of
  round_trips_Option : rt.

Lemma write_all_map {A B : Type} (f : A -> B) (w : B -> Writer) (l : list A) :
  write_all (fun x => w (f x)) l = write_all w (map f l).
Proof.
  induction l as [|x l IH]; [reflexivity|].
  cbn [write_all fold_right map]. fold (write_all (fun x => w (f x)) l).
  fold (write_all w (map f l)). now rewrite IH.
Qed.

Lemma round_trips_u8_array (array : bytes) : round_trips write_u8_array read_u8_array array.
Proof.
  intros b rest E. unfold write_u8_array, writeArray in E.
  rewrite write_all_map in E. rewrite <- (length_map Z_of_byte) in E.
  fold (writeArray writeU8 (map Z_of_byte array)) in E.
  unfold read_u8_array. read_field. unfold ret.
  rewrite map_map. rewrite (map_ext _ (fun x => x)) by apply byte_of_Z_of_byte.
  rewrite map_id. reflexivity.
Qed.
#[export] Hint Resolve round_trips_u8_array : rt.


Lemma round_trips_PublicKey (x : PublicKey.t) : round_trips PublicKey.write PublicKey.read x.
Proof.
  destruct x. unfold PublicKey.write, PublicKey.read. cbn [PublicKey.keyType PublicKey.data].
  round_trip. reflexivity.
Qed.
#[export] Hint Resolve round_trips_PublicKey : rt.

Lemma round_trips_Signature (x : Signature.t) : round_trips Signature.write Signature.read x.
Proof.
  destruct x. unfold Signature.write, Signature.read. cbn [Signature.keyType Signature.data].
  round_trip. reflexivity.
Qed.
#[export] Hint Resolve round_trips_Signature : rt.

Lemma round_trips_FunctionCallPermission (x : FunctionCallPermission.t) :
  round_trips FunctionCallPermission.write FunctionCallPermission.read x.
Proof.
  destruct x. unfold FunctionCallPermission.write, FunctionCallPermission.read.
  cbn [FunctionCallPermission.allowance FunctionCallPermission.receiverId
       FunctionCallPermission.methodNames].
  round_trip. reflexivity.
Qed.
#[export] Hint Resolve round_trips_FunctionCallPermission : rt.

Lemma round_trips_FullAccessPermission (x : FullAccessPermission.t) :
  round_trips FullAccessPermission.write FullAccessPermission.read x.
Proof.
  destruct x. intros b rest E. inversion E. reflexivity.
Qed.
#[export] Hint Resolve round_trips_FullAccessPermission : rt.

Lemma writeEnum_at (names : list string) (name : string) (body : Writer) (idx : nat) :
  index_of name names = Some idx ->
  writeEnum names name body = writeU8 (Z.of_nat idx) +++ body.
Proof. intros H. unfold writeEnum. now rewrite H. Qed.

Lemma readEnum_at {A : Type} (values : list (string * Reader A)) (idx : nat)
    (name : string) (body : Reader A) (b rest : bytes) :
  writeU8 (Z.of_nat idx) = Ok b ->
  nth_error values idx = Some (name, body) ->
  readEnum values (b ++ rest) = body rest.
Proof.
  intros E H. unfold readEnum. read_field. rewrite Nat2Z.id, H. reflexivity.
Qed.

Lemma round_trips_AccessKeyPermission (p : AccessKeyPermission.t) :
  round_trips AccessKeyPermission.write AccessKeyPermission.read p.
Proof.
  intros b rest E. unfold AccessKeyPermission.read.
  destruct p as [x|x];
    cbv beta iota delta [AccessKeyPermission.write AccessKeyPermission.enum] in E;
    erewrite writeEnum_at in E by reflexivity; split_writes;
    rewrite <- app_assoc; erewrite readEnum_at by (eassumption || reflexivity);
    read_field; reflexivity.
Qed.
#[export] Hint Resolve round_trips_AccessKeyPermission : rt.

Ltac struct_round_trip x :=
  round_trip; destruct x; reflexivity.

Lemma round_trips_AccessKey (x : AccessKey.t) : round_trips AccessKey.write AccessKey.read x.
Proof. unfold AccessKey.write, AccessKey.read. struct_round_trip x. Qed.
#[export] Hint Resolve round_trips_AccessKey : rt.

Lemma round_trips_CreateAccount (x : CreateAccount.t) :
  round_trips CreateAccount.write CreateAccount.read x.
Proof. destruct x. intros b rest E. inversion E. reflexivity. Qed.

Lemma round_trips_DeployContract (x : DeployContract.t) :
  round_trips DeployContract.write DeployContract.read x.
Proof.
  unfold DeployContract.write, DeployContract.read.
  intros b rest E. read_field. destruct x; reflexivity.
Qed.

Lemma round_trips_FunctionCall (x : FunctionCall.t) :
  round_trips FunctionCall.write FunctionCall.read x.
Proof.
  intros b rest E. unfold FunctionCall.write in E. unfold FunctionCall.read.
  destruct x as [methodName args gas deposit].
  cbn [FunctionCall.methodName FunctionCall.args FunctionCall.gas FunctionCall.deposit] in E.
  destruct args as [contents| |]; cbn [FunctionCall.write_args] in E;
    split_writes; try discriminate.
  rewrite <- ?app_assoc. repeat read_field. reflexivity.
Qed.

Lemma round_trips_Transfer (x : Transfer.t) : round_trips Transfer.write Transfer.read x.
Proof.
  unfold Transfer.write, Transfer.read.
  intros b rest E. read_field. destruct x; reflexivity.
Qed.

Lemma round_trips_Stake (x : Stake.t) : round_trips Stake.write Stake.read x.
Proof. unfold Stake.write, Stake.read. struct_round_trip x. Qed.

Lemma round_trips_AddKey (x : AddKey.t) : round_trips AddKey.write AddKey.read x.
Proof. unfold AddKey.write, AddKey.read. struct_round_trip x. Qed.

Lemma round_trips_DeleteKey (x : DeleteKey.t) : round_trips DeleteKey.write DeleteKey.read x.
Proof.
  unfold DeleteKey.write, DeleteKey.read.
  intros b rest E. read_field. destruct x; reflexivity.
Qed.

Lemma round_trips_DeleteAccount (x : DeleteAccount.t) :
  round_trips DeleteAccount.write DeleteAccount.read x.
Proof.
  unfold DeleteAccount.write, DeleteAccount.read.
  intros b rest E. read_field. destruct x; reflexivity.
Qed.

#[export] Hint Resolve round_trips_CreateAccount round_trips_DeployContract
  round_trips_FunctionCall round_trips_Transfer round_trips_Stake round_trips_AddKey
  round_trips_DeleteKey round_trips_DeleteAccount : rt.

Section HoldingActions.

Context {A : Type} (write_Action : A -> Writer) (read_Action : Reader A).

Lemma round_trips_NonDelegateAction (x : NonDelegateAction.t A) :
  round_trips write_Action read_Action (NonDelegateAction.action x) ->
  round_trips (NonDelegateAction.write write_Action) (NonDelegateAction.read read_Action) x.
Proof.
  intros H b rest E. unfold NonDelegateAction.write in E. unfold NonDelegateAction.read.
  read_field. destruct x; reflexivity.
Qed.

Lemma round_trips_DelegateAction (x : DelegateAction.t A) :
  Forall (fun n => round_trips write_Action read_Action (NonDelegateAction.action n))
    (DelegateAction.actions x) ->
  round_trips (DelegateAction.write write_Action) (DelegateAction.read read_Action) x.
Proof.
  intros H.
  assert (Forall (round_trips (NonDelegateAction.write write_Action)
                    (NonDelegateAction.read read_Action)) (DelegateAction.actions x)) as H'.
  { eapply Forall_impl; [|exact H]. apply round_trips_NonDelegateAction. }
  pose proof (round_trips_Array _ _ _ H') as Harr.
  unfold DelegateAction.write, DelegateAction.read. struct_round_trip x.
Qed.

Lemma round_trips_SignedDelegateAction (x : SignedDelegateAction.t A) :
  Forall (fun n => round_trips write_Action read_Action (NonDelegateAction.action n))
    (DelegateAction.actions (SignedDelegateAction.delegateAction x)) ->
  round_trips (SignedDelegateAction.write write_Action)
    (SignedDelegateAction.read read_Action) x.
Proof.
  intros H. pose proof (round_trips_DelegateAction _ H) as Hd.
  unfold SignedDelegateAction.write, SignedDelegateAction.read. struct_round_trip x.
Qed.

End HoldingActions.

Lemma Action_depth_pos (a : Action.t) : (1 <= Action.depth a)%nat.
Proof. destruct a; cbn [Action.depth]; lia. Qed.

Lemma depth_of_wrapped (x : SignedDelegateAction.t Action.t) (fuel : nat) :
  (Action.depth (Action.delegate x) <= S fuel)%nat ->
  Forall (fun n => Action.depth (NonDelegateAction.action n) <= fuel)%nat
    (DelegateAction.actions (SignedDelegateAction.delegateAction x)).
Proof.
  cbn [Action.depth]. intros H. apply le_S_n in H. revert H.
  induction (DelegateAction.actions (SignedDelegateAction.delegateAction x)) as [|n l IH];
    intros H; constructor; cbn [map fold_right] in H.
  - lia.
  - apply IH. lia.
Qed.

(** The reader of actions undoes the writer on every action that nests
    no deeper than the bound. *)
Lemma round_trips_Action (fuel : nat) (a : Action.t) :
  (Action.depth a <= fuel)%nat -> round_trips Action.write (Action.read fuel) a.
Proof.
  revert a. induction fuel as [|fuel IH]; intros a Hd.
  - pose proof (Action_depth_pos a). lia.
  - intros b rest E. cbn [Action.read].
    destruct a as [x|x|x|x|x|x|x|x|x];
      cbn [Action.write] in E; cbv beta iota delta [Action.enum] in E;
      erewrite writeEnum_at in E by reflexivity; split_writes;
      rewrite <- app_assoc; erewrite readEnum_at by (eassumption || reflexivity).
    1-8: read_field; reflexivity.
    apply depth_of_wrapped in Hd.
    assert (round_trips (SignedDelegateAction.write Action.write)
              (SignedDelegateAction.read (Action.read fuel)) x) as Hx.
    { apply round_trips_SignedDelegateAction.
      eapply Forall_impl; [|exact Hd]. intros n Hn. apply IH. exact Hn. }
    read_field. reflexivity.
Qed.

(** ** The nesting of delegate actions is bounded by the length of the encoding *)

Lemma write_all_parts {A : Type} (w : A -> Writer) (l : list A) (b : bytes) :
  write_all w l = Ok b ->
  Forall (fun x => exists bx, w x = Ok bx /\ (List.length bx <= List.length b)%nat) l.
Proof.
  revert b. induction l as [|x l IH]; intros b E; constructor.
  - cbn [write_all fold_right] in E. fold (write_all w l) in E. split_writes.
    exists b0. split; [assumption|]. rewrite length_app. lia.
  - cbn [write_all fold_right] in E. fold (write_all w l) in E. split_writes.
    eapply Forall_impl; [|apply IH; eassumption].
    intros y (bx & Hy & Hl). exists bx. split; [assumption|]. rewrite length_app. lia.
Qed.

Lemma fold_max_le {A : Type} (f : A -> nat) (l : list A) (m : nat) :
  Forall (fun x => f x <= m)%nat l -> (fold_right Nat.max O (map f l) <= m)%nat.
Proof.
  induction 1; cbn [map fold_right]; lia.
Qed.

Lemma writeUInt_length (width : nat) (v : Z) (b : bytes) :
  writeUInt width v = Ok b -> List.length b = width.
Proof.
  intros E. apply writeUInt_Ok in E. destruct E as [_ ->]. apply length_toArray_le.
Qed.

Lemma Action_depth_le_length (k : nat) (a : Action.t) (b : bytes) :
  (Action.depth a <= k)%nat -> Action.write a = Ok b ->
  (Action.depth a <= List.length b)%nat.
Proof.
  revert a b. induction k as [|k IH]; intros a b Hd E.
  - pose proof (Action_depth_pos a). lia.
  - destruct a as [x|x|x|x|x|x|x|x|x];
      cbn [Action.write] in E; cbv beta iota delta [Action.enum] in E;
      erewrite writeEnum_at in E by reflexivity;
      apply write_then_Ok in E; destruct E as (bi & bb & Ei & Eb & ->);
      apply writeUInt_length in Ei; rewrite length_app, Ei.
    1-8: cbn [Action.depth]; lia.
    pose proof (depth_of_wrapped x k Hd) as Hw.
    unfold SignedDelegateAction.write, DelegateAction.write, writeArray in Eb.
    split_writes.
    match goal with
    | H : write_all _ _ = Ok ?ball |- _ =>
        apply write_all_parts in H; rename H into Hparts;
        enough (fold_right Nat.max O
                  (map (fun n => Action.depth (NonDelegateAction.action n))
                     (DelegateAction.actions (SignedDelegateAction.delegateAction x)))
                <= List.length ball)%nat
          by (cbn [Action.depth]; rewrite !length_app; lia)
    end.
    apply fold_max_le. rewrite Forall_forall in *.
    intros n Hn. destruct (Hparts n Hn) as (bx & Hx & Hl).
    unfold NonDelegateAction.write in Hx.
    specialize (IH _ _ (Hw n Hn) Hx). lia.
Qed.

(** An action nests no deeper than its encoding is long. *)
Lemma Action_depth_le (a : Action.t) (b : bytes) :
  Action.write a = Ok b -> (Action.depth a <= List.length b)%nat.
Proof. apply (Action_depth_le_length (Action.depth a)). lia. Qed.

Lemma actions_depth_le (l : list Action.t) (b : bytes) :
  write_all Action.write l = Ok b ->
  Forall (fun a => Action.depth a <= List.length b)%nat l.
Proof.
  intros E. apply write_all_parts in E. eapply Forall_impl; [|exact E].
  intros a (bx & Hx & Hl). apply Action_depth_le in Hx. lia.
Qed.

Lemma wrapped_depth_le (l : list (NonDelegateAction.t Action.t)) (b : bytes) :
  write_all (NonDelegateAction.write Action.write) l = Ok b ->
  Forall (fun n => Action.depth (NonDelegateAction.action n) <= List.length b)%nat l.
Proof.
  intros E. apply write_all_parts in E. eapply Forall_impl; [|exact E].
  intros a (bx & Hx & Hl). apply Action_depth_le in Hx. lia.
Qed.

Lemma round_trips_Transaction (fuel : nat) (x : Transaction.t) :
  Forall (fun a => Action.depth a <= fuel)%nat (Transaction.actions x) ->
  round_trips Transaction.write (Transaction.read fuel) x.
Proof.
  intros H.
  assert (round_trips (writeArray Action.write) (readArray (Action.read fuel))
            (Transaction.actions x)) as Harr.
  { apply round_trips_Array. eapply Forall_impl; [|exact H].
    intros a. apply round_trips_Action. }
  intros b rest E. unfold Transaction.write in E. unfold Transaction.read.
  destruct x as [signerId publicKey nonce receiverId actions blockHash].
  cbn [Transaction.signerId Transaction.publicKey Transaction.nonce Transaction.receiverId
       Transaction.actions Transaction.blockHash] in *.
  destruct signerId as [str|]; cbn [Transaction.write_signerId] in E;
    split_writes; try discriminate.
  rewrite <- ?app_assoc. repeat read_field. reflexivity.
Qed.

Lemma round_trips_SignedTransaction (fuel : nat) (x : SignedTransaction.t) :
  Forall (fun a => Action.depth a <= fuel)%nat
    (Transaction.actions (SignedTransaction.transaction x)) ->
  round_trips SignedTransaction.write (SignedTransaction.read fuel) x.
Proof.
  intros H. pose proof (round_trips_Transaction fuel _ H) as Ht.
  unfold SignedTransaction.write, SignedTransaction.read. struct_round_trip x.
Qed.

Lemma Forall_le_trans {A : Type} (f : A -> nat) (l : list A) (m k : nat) :
  (m <= k)%nat -> Forall (fun x => f x <= m)%nat l -> Forall (fun x => f x <= k)%nat l.
Proof.
  intros Hmk H. eapply Forall_impl; [|exact H]. cbn. intros; lia.
Qed.

Lemma DelegateAction_depth_le (x : DelegateAction.t Action.t) (b : bytes) :
  DelegateAction.write Action.write x = Ok b ->
  Forall (fun n => Action.depth (NonDelegateAction.action n) <= List.length b)%nat
    (DelegateAction.actions x).
Proof.
  unfold DelegateAction.write, writeArray. intros E. split_writes.
  match goal with
  | H : write_all _ _ = Ok _ |- _ =>
      apply wrapped_depth_le in H; eapply Forall_le_trans; [|exact H]
  end.
  rewrite !length_app. lia.
Qed.

Lemma Transaction_depth_le (x : Transaction.t) (b : bytes) :
  Transaction.write x = Ok b ->
  Forall (fun a => Action.depth a <= List.length b)%nat (Transaction.actions x).
Proof.
  unfold Transaction.write, writeArray. intros E. split_writes.
  match goal with
  | H : write_all _ _ = Ok _ |- _ =>
      apply actions_depth_le in H; eapply Forall_le_trans; [|exact H]
  end.
  rewrite !length_app. lia.
Qed.

Lemma read_to_end_round_trips {A : Type} (w : A -> Writer) (r : Reader A) (x : A) (b : bytes) :
  round_trips w r x -> w x = Ok b -> read_to_end r b = Ok x.
Proof.
  intros H E. unfold read_to_end. specialize (H b [] E).
  rewrite app_nil_r in H. rewrite H. reflexivity.
Qed.

(** Decoding the encoding of an instance of a class gives the instance. *)
Lemma deserialize_serialize (c : Class.t) (x : instance c) (b : bytes) :
  serialize c x = Ok b -> deserialize c b = Ok x.
Proof.
  unfold serialize, deserialize. intros E.
  apply (read_to_end_round_trips (writer (SCHEMA c))); [|exact E].
  destruct c; cbn [SCHEMA writer reader instance] in *; auto with rt.
  - apply round_trips_SignedTransaction.
    unfold SignedTransaction.write in E. split_writes.
    match goal with
    | H : Transaction.write _ = Ok _ |- _ =>
        apply Transaction_depth_le in H; eapply Forall_le_trans; [|exact H]
    end.
    rewrite !length_app. lia.
  - apply round_trips_Transaction. apply Transaction_depth_le. exact E.
  - apply round_trips_Action. apply Action_depth_le. exact E.
  - apply round_trips_NonDelegateAction. apply round_trips_Action.
    apply Action_depth_le. exact E.
  - apply round_trips_DelegateAction.
    eapply Forall_impl; [|apply (DelegateAction_depth_le _ _ E)].
    intros n. apply round_trips_Action.
  - apply round_trips_SignedDelegateAction.
    unfold SignedDelegateAction.write in E. split_writes.
    match goal with
    | H : DelegateAction.write _ _ = Ok _ |- _ =>
        apply DelegateAction_depth_le in H; eapply Forall_impl; [|exact H]
    end.
    intros n Hn. apply round_trips_Action. rewrite length_app. cbn beta in Hn. lia.
Qed.

(** ** Well-formed values have an encoding *)

Create HintDb wf discriminated.

Lemma succeeds_then (w1 w2 : Writer) : succeeds w1 -> succeeds w2 -> succeeds (w1 +++ w2).
Proof. intros [b1 ->] [b2 ->]. exists (b1 ++ b2). reflexivity. Qed.

Lemma succeeds_UInt (width : nat) (v : Z) : fits width v = true -> succeeds (writeUInt width v).
Proof. intros H. unfold writeUInt. rewrite H. eexists; reflexivity. Qed.

Lemma succeeds_U8 (v : Z) : fits 1 v = true -> succeeds (writeU8 v).
Proof. apply succeeds_UInt. Qed.
Lemma succeeds_U32 (v : Z) : fits 4 v = true -> succeeds (writeU32 v).
Proof. apply succeeds_UInt. Qed.
Lemma succeeds_U64 (v : Z) : fits 8 v = true -> succeeds (writeU64 v).
Proof. apply succeeds_UInt. Qed.
Lemma succeeds_U128 (v : Z) : fits 16 v = true -> succeeds (writeU128 v).
Proof. apply succeeds_UInt. Qed.

Lemma wf_length_fits {A : Type} (l : list A) :
  wf_length l = true -> fits 4 (Z.of_nat (List.length l)) = true.
Proof.
  unfold wf_length. intros H. apply Z.ltb_lt in H. apply fits_range.
  change (8 * Z.of_nat 4) with 32. lia.
Qed.

Lemma succeeds_String (s : string) : wf_string s = true -> succeeds (writeString s).
Proof.
  intros H. unfold writeString. apply succeeds_then.
  - apply succeeds_U32, wf_length_fits, H.
  - eexists; reflexivity.
Qed.

Lemma succeeds_FixedArray (len : nat) (array : bytes) :
  Nat.eqb (List.length array) len = true -> succeeds (writeFixedArray len array).
Proof. intros H. unfold writeFixedArray. rewrite H. eexists; reflexivity. Qed.

Lemma succeeds_all {A : Type} (w : A -> Writer) (l : list A) :
  Forall (fun x => succeeds (w x)) l -> succeeds (write_all w l).
Proof.
  induction 1 as [|x l Hx Hl IH].
  - eexists; reflexivity.
  - cbn [write_all fold_right]. apply succeeds_then; assumption.
Qed.

Lemma succeeds_Array {A : Type} (w : A -> Writer) (wf : A -> bool) (l : list A) :
  (forall x, In x l -> wf x = true -> succeeds (w x)) ->
  wf_length l = true -> forallb wf l = true -> succeeds (writeArray w l).
Proof.
  intros Hw Hl Hall. unfold writeArray. apply succeeds_then.
  - apply succeeds_U32, wf_length_fits, Hl.
  - apply succeeds_all. apply Forall_forall. intros x Hx. apply Hw; [exact Hx|].
    rewrite forallb_forall in Hall. auto.
Qed.

Lemma succeeds_u8_array (array : bytes) :
  wf_length array = true -> succeeds (write_u8_array array).
Proof.
  intros Hl. unfold write_u8_array, writeArray. apply succeeds_then.
  - apply succeeds_U32, wf_length_fits, Hl.
  - apply succeeds_all. apply Forall_forall. intros x _.
    apply succeeds_U8. apply fits_range. change (8 * Z.of_nat 1) with 8.
    pose proof (Z_of_byte_range x). lia.
Qed.

Lemma succeeds_Enum (names : list string) (name : string) (body : Writer) (idx : nat) :
  index_of name names = Some idx -> fits 1 (Z.of_nat idx) = true ->
  succeeds body -> succeeds (writeEnum names name body).
Proof.
  intros Hi Hf Hb. rewrite (writeEnum_at _ _ _ _ Hi).
  apply succeeds_then; [apply succeeds_U8, Hf | exact Hb].
Qed.

#[export] Hint Resolve succeeds_then succeeds_U8 succeeds_U32 succeeds_U64 succeeds_U128
  succeeds_String succeeds_FixedArray succeeds_u8_array : wf.

Ltac split_wf :=
  repeat match goal with
  | H : _ && _ = true |- _ => apply andb_true_iff in H; destruct H
  end.

Ltac split_succeeds :=
  repeat match goal with
  | |- succeeds (_ +++ _) => apply succeeds_then
  end.

Ltac wf_struct := intros; split_wf; auto 12 with wf.

Lemma succeeds_PublicKey (x : PublicKey.t) : PublicKey.wf x = true -> succeeds (PublicKey.write x).
Proof. unfold PublicKey.wf, PublicKey.write. wf_struct. Qed.
#[export] Hint Resolve succeeds_PublicKey : wf.

Lemma succeeds_Signature (x : Signature.t) : Signature.wf x = true -> succeeds (Signature.write x).
Proof. unfold Signature.wf, Signature.write. wf_struct. Qed.
#[export] Hint Resolve succeeds_Signature : wf.

Lemma succeeds_FunctionCallPermission (x : FunctionCallPermission.t) :
  FunctionCallPermission.wf x = true -> succeeds (FunctionCallPermission.write x).
Proof.
  unfold FunctionCallPermission.wf, FunctionCallPermission.write. intros. split_wf.
  split_succeeds; auto with wf.
  - destruct (FunctionCallPermission.allowance x); cbn [writeOption]; auto with wf.
  - apply (succeeds_Array writeString wf_string); auto with wf.
Qed.
#[export] Hint Resolve succeeds_FunctionCallPermission : wf.

Lemma succeeds_AccessKeyPermission (p : AccessKeyPermission.t) :
  AccessKeyPermission.wf p = true -> succeeds (AccessKeyPermission.write p).
Proof.
  destruct p as [x|x]; cbn [AccessKeyPermission.wf]; intros H;
    cbv beta iota delta [AccessKeyPermission.write AccessKeyPermission.enum];
    eapply succeeds_Enum; try reflexivity; auto with wf.
  eexists; reflexivity.
Qed.
#[export] Hint Resolve succeeds_AccessKeyPermission : wf.

Lemma succeeds_AccessKey (x : AccessKey.t) : AccessKey.wf x = true -> succeeds (AccessKey.write x).
Proof. unfold AccessKey.wf, AccessKey.write. wf_struct. Qed.
#[export] Hint Resolve succeeds_AccessKey : wf.

Lemma succeeds_DeployContract (x : DeployContract.t) :
  DeployContract.wf x = true -> succeeds (DeployContract.write x).
Proof. unfold DeployContract.wf, DeployContract.write. wf_struct. Qed.

Lemma succeeds_FunctionCall (x : FunctionCall.t) :
  FunctionCall.wf x = true -> succeeds (FunctionCall.write x).
Proof.
  unfold FunctionCall.wf, FunctionCall.write. intros. split_wf.
  destruct (FunctionCall.args x); try discriminate.
  cbn [FunctionCall.write_args]. auto 12 with wf.
Qed.

Lemma succeeds_Transfer (x : Transfer.t) : Transfer.wf x = true -> succeeds (Transfer.write x).
Proof. unfold Transfer.wf, Transfer.write. wf_struct. Qed.

Lemma succeeds_Stake (x : Stake.t) : Stake.wf x = true -> succeeds (Stake.write x).
Proof. unfold Stake.wf, Stake.write. wf_struct. Qed.

Lemma succeeds_AddKey (x : AddKey.t) : AddKey.wf x = true -> succeeds (AddKey.write x).
Proof. unfold AddKey.wf, AddKey.write. wf_struct. Qed.

Lemma succeeds_DeleteKey (x : DeleteKey.t) : DeleteKey.wf x = true -> succeeds (DeleteKey.write x).
Proof. unfold DeleteKey.wf, DeleteKey.write. wf_struct. Qed.

Lemma succeeds_DeleteAccount (x : DeleteAccount.t) :
  DeleteAccount.wf x = true -> succeeds (DeleteAccount.write x).
Proof. unfold DeleteAccount.wf, DeleteAccount.write. wf_struct. Qed.

#[export] Hint Resolve succeeds_DeployContract succeeds_FunctionCall succeeds_Transfer
  succeeds_Stake succeeds_AddKey succeeds_DeleteKey succeeds_DeleteAccount : wf.

Section HoldingActionsWf.

Context {A : Type} (write_Action : A -> Writer) (wf_Action : A -> bool).

Lemma succeeds_DelegateAction (x : DelegateAction.t A) :
  (forall n, In n (DelegateAction.actions x) ->
     wf_Action (NonDelegateAction.action n) = true ->
     succeeds (write_Action (NonDelegateAction.action n))) ->
  DelegateAction.wf wf_Action x = true -> succeeds (DelegateAction.write write_Action x).
Proof.
  intros Hn. unfold DelegateAction.wf, DelegateAction.write. intros. split_wf.
  split_succeeds; auto with wf.
  apply (succeeds_Array _ (NonDelegateAction.wf wf_Action)); auto.
Qed.

Lemma succeeds_SignedDelegateAction (x : SignedDelegateAction.t A) :
  (forall n, In n (DelegateAction.actions (SignedDelegateAction.delegateAction x)) ->
     wf_Action (NonDelegateAction.action n) = true ->
     succeeds (write_Action (NonDelegateAction.action n))) ->
  SignedDelegateAction.wf wf_Action x = true ->
  succeeds (SignedDelegateAction.write write_Action x).
Proof.
  intros Hn. unfold SignedDelegateAction.wf, SignedDelegateAction.write. intros. split_wf.
  apply succeeds_then; auto with wf. apply succeeds_DelegateAction; assumption.
Qed.

End HoldingActionsWf.

Lemma succeeds_Action_bounded (k : nat) (a : Action.t) :
  (Action.depth a <= k)%nat -> Action.wf a = true -> succeeds (Action.write a).
Proof.
  revert a. induction k as [|k IH]; intros a Hd Hwf.
  - pose proof (Action_depth_pos a). lia.
  - destruct a as [x|x|x|x|x|x|x|x|x]; cbn [Action.wf] in Hwf;
      cbn [Action.write]; cbv beta iota delta [Action.enum];
      eapply succeeds_Enum; try reflexivity; auto with wf.
    + eexists; reflexivity.
    + apply succeeds_SignedDelegateAction with (wf_Action := Action.wf); [|exact Hwf].
      intros n Hn. apply IH.
      pose proof (depth_of_wrapped x k Hd) as Hw. rewrite Forall_forall in Hw. auto.
Qed.

Lemma succeeds_Action (a : Action.t) : Action.wf a = true -> succeeds (Action.write a).
Proof. apply (succeeds_Action_bounded (Action.depth a)). lia. Qed.
#[export] Hint Resolve succeeds_Action : wf.

Lemma succeeds_Transaction (x : Transaction.t) :
  Transaction.wf x = true -> succeeds (Transaction.write x).
Proof.
  unfold Transaction.wf, Transaction.write. intros. split_wf.
  destruct (Transaction.signerId x); try discriminate.
  cbn [Transaction.write_signerId].
  split_succeeds; auto with wf.
  apply (succeeds_Array _ Action.wf); auto with wf.
Qed.
#[export] Hint Resolve succeeds_Transaction : wf.

Lemma succeeds_SignedTransaction (x : SignedTransaction.t) :
  SignedTransaction.wf x = true -> succeeds (SignedTransaction.write x).
Proof. unfold SignedTransaction.wf, SignedTransaction.write. wf_struct. Qed.

(** Every well-formed instance of a class has an encoding. *)
Lemma serialize_well_formed (c : Class.t) (x : instance c) :
  well_formed c x = true -> succeeds (serialize c x).
Proof.
  unfold serialize.
  destruct c; cbn [SCHEMA writer instance well_formed] in *; auto with wf.
  - apply succeeds_SignedTransaction.
  - intros _. eexists; reflexivity.
  - intros _. eexists; reflexivity.
  - unfold NonDelegateAction.wf, NonDelegateAction.write. auto with wf.
  - apply succeeds_DelegateAction. auto with wf.
  - apply succeeds_SignedDelegateAction. auto with wf.
Qed.

(** ** The bound on nesting given to the readers is never reached *)

Create HintDb shrink discriminated.

Lemma shrinks_ret {A : Type} (a : A) : shrinks (ret a).
Proof. intros input x rest H. inversion H. lia. Qed.

Lemma shrinks_fail {A : Type} (e : Error) : shrinks (@fail A e).
Proof. intros input x rest H. discriminate. Qed.

Lemma shrinks_bind {A B : Type} (r : Reader A) (k : A -> Reader B) :
  shrinks r -> (forall a, shrinks (k a)) -> shrinks (bind r k).
Proof.
  intros Hr Hk input x rest. unfold bind.
  destruct (r input) as [[a mid]|] eqn:E; [|discriminate].
  intros H. apply Hr in E. apply Hk in H. lia.
Qed.

Lemma shrinks_readBuffer (len : nat) : shrinks (readBuffer len).
Proof.
  intros input x rest. unfold readBuffer.
  destruct (Nat.ltb (List.length input) len); [discriminate|].
  intros H. inversion H. rewrite length_skipn. lia.
Qed.

#[export] Hint Resolve shrinks_ret shrinks_fail shrinks_bind shrinks_readBuffer : shrink.

Lemma shrinks_readUInt (width : nat) : shrinks (readUInt width).
Proof. unfold readUInt. auto with shrink. Qed.

Lemma shrinks_readU8 : shrinks readU8.
Proof. apply shrinks_readUInt. Qed.
Lemma shrinks_readU32 : shrinks readU32.
Proof. apply shrinks_readUInt. Qed.
Lemma shrinks_readU64 : shrinks readU64.
Proof. apply shrinks_readUInt. Qed.
Lemma shrinks_readU128 : shrinks readU128.
Proof. apply shrinks_readUInt. Qed.

#[export] Hint Resolve shrinks_readU8 shrinks_readU32 shrinks_readU64 shrinks_readU128 : shrink.

Lemma shrinks_readString : shrinks readString.
Proof. unfold readString. auto 8 with shrink. Qed.

Lemma shrinks_readFixedArray (len : nat) : shrinks (readFixedArray len).
Proof. apply shrinks_readBuffer. Qed.

Lemma shrinks_read_times {A : Type} (n : nat) (r : Reader A) :
  shrinks r -> shrinks (read_times n r).
Proof. intros H. induction n; cbn [read_times]; auto 8 with shrink. Qed.

Lemma shrinks_readArray {A : Type} (r : Reader A) : shrinks r -> shrinks (readArray r).
Proof.
  intros H. unfold readArray. apply shrinks_bind; [auto with shrink|].
  intros len. apply shrinks_read_times, H.
Qed.

Lemma shrinks_readOption {A : Type} (r : Reader A) : shrinks r -> shrinks (readOption r).
Proof.
  intros H. unfold readOption. apply shrinks_bind; [auto with shrink|].
  intros flag. destruct (flag =? 0); auto with shrink.
Qed.

#[export] Hint Resolve shrinks_readString shrinks_readFixedArray shrinks_readArray
  shrinks_readOption : shrink.

Lemma shrinks_read_u8_array : shrinks read_u8_array.
Proof. unfold read_u8_array. auto 8 with shrink. Qed.

Lemma shrinks_readEnum {A : Type} (values : list (string * Reader A)) :
  Forall (fun v => shrinks (snd v)) values -> shrinks (readEnum values).
Proof.
  intros H. unfold readEnum. apply shrinks_bind; [auto with shrink|].
  intros idx. destruct (nth_error values (Z.to_nat idx)) as [[name body]|] eqn:E;
    [|auto with shrink].
  apply nth_error_In in E. rewrite Forall_forall in H. apply (H _ E).
Qed.

#[export] Hint Resolve shrinks_read_u8_array : shrink.

Lemma shrinks_PublicKey : shrinks PublicKey.read.
Proof. unfold PublicKey.read. auto 8 with shrink. Qed.
#[export] Hint Resolve shrinks_PublicKey : shrink.

Lemma shrinks_Signature : shrinks Signature.read.
Proof. unfold Signature.read. auto 8 with shrink. Qed.
#[export] Hint Resolve shrinks_Signature : shrink.

Lemma shrinks_AccessKey : shrinks AccessKey.read.
Proof.
  unfold AccessKey.read. apply shrinks_bind; [auto with shrink|]. intros nonce.
  apply shrinks_bind; [|auto with shrink].
  apply shrinks_readEnum. repeat constructor; cbn [snd].
  - unfold FunctionCallPermission.read. auto 12 with shrink.
  - unfold FullAccessPermission.read. auto 8 with shrink.
Qed.
#[export] Hint Resolve shrinks_AccessKey : shrink.

Lemma agree_refl {A : Type} (n : nat) (m : Reader A) : agree_upto n m m.
Proof. intros input _. reflexivity. Qed.

Lemma agree_bind {A B : Type} (n : nat) (m m' : Reader A) (k k' : A -> Reader B) :
  agree_upto n m m' -> shrinks m -> (forall x, agree_upto n (k x) (k' x)) ->
  agree_upto n (bind m k) (bind m' k').
Proof.
  intros Hm Hs Hk input Hl. unfold bind. rewrite <- (Hm input Hl).
  destruct (m input) as [[x rest]|] eqn:E; [|reflexivity].
  apply Hk. apply Hs in E. lia.
Qed.

Lemma agree_read_times {A : Type} (n count : nat) (m m' : Reader A) :
  agree_upto n m m' -> shrinks m -> agree_upto n (read_times count m) (read_times count m').
Proof.
  intros Hm Hs. induction count as [|count IH]; cbn [read_times].
  - apply agree_refl.
  - apply agree_bind; [assumption|assumption|]. intros x.
    apply agree_bind; [assumption|apply shrinks_read_times; assumption|].
    intros xs. apply agree_refl.
Qed.

Lemma agree_readArray {A : Type} (n : nat) (m m' : Reader A) :
  agree_upto n m m' -> shrinks m -> agree_upto n (readArray m) (readArray m').
Proof.
  intros Hm Hs. unfold readArray.
  apply agree_bind; [apply agree_refl|auto with shrink|].
  intros len. apply agree_read_times; assumption.
Qed.

Ltac same_field :=
  apply agree_bind; [apply agree_refl | auto with shrink | intros ?].

Section ReadersOfActions.

Context {A : Type} (r r' : Reader A) (n : nat).
Hypothesis agree_r : agree_upto n r r'.
Hypothesis shrinks_r : shrinks r.

Lemma shrinks_NonDelegateAction : shrinks (NonDelegateAction.read r).
Proof. unfold NonDelegateAction.read. auto with shrink. Qed.

Lemma shrinks_DelegateAction : shrinks (DelegateAction.read r).
Proof.
  pose proof shrinks_NonDelegateAction.
  unfold DelegateAction.read. auto 20 with shrink.
Qed.

Lemma shrinks_SignedDelegateAction : shrinks (SignedDelegateAction.read r).
Proof.
  pose proof shrinks_DelegateAction.
  unfold SignedDelegateAction.read. auto 8 with shrink.
Qed.

Lemma agree_NonDelegateAction :
  agree_upto n (NonDelegateAction.read r) (NonDelegateAction.read r').
Proof.
  unfold NonDelegateAction.read.
  apply agree_bind; [assumption|assumption|]. intros; apply agree_refl.
Qed.

Lemma agree_DelegateAction :
  agree_upto n (DelegateAction.read r) (DelegateAction.read r').
Proof.
  unfold DelegateAction.read. do 2 same_field.
  apply agree_bind; [|apply shrinks_readArray, shrinks_NonDelegateAction|].
  - apply agree_readArray;
      [apply agree_NonDelegateAction | apply shrinks_NonDelegateAction].
  - intros actions. apply agree_refl.
Qed.

Lemma agree_SignedDelegateAction :
  agree_upto n (SignedDelegateAction.read r) (SignedDelegateAction.read r').
Proof.
  unfold SignedDelegateAction.read.
  apply agree_bind; [apply agree_DelegateAction | apply shrinks_DelegateAction|].
  intros; apply agree_refl.
Qed.

End ReadersOfActions.

Lemma shrinks_Action (fuel : nat) : shrinks (Action.read fuel).
Proof.
  induction fuel as [|fuel IH]; cbn [Action.read]; [auto with shrink|].
  apply shrinks_readEnum. unfold Action.values.
  pose proof (shrinks_SignedDelegateAction _ IH).
  repeat constructor; cbn [snd];
    unfold CreateAccount.read, DeployContract.read, FunctionCall.read, Transfer.read,
      Stake.read, AddKey.read, DeleteKey.read, DeleteAccount.read;
    auto 20 with shrink.
Qed.

Lemma readU8_consumes (input : bytes) (idx : Z) (rest : bytes) :
  readU8 input = Ok (idx, rest) -> List.length input = S (List.length rest).
Proof.
  destruct input as [|b input]; [discriminate|].
  cbn. intros H. inversion H. reflexivity.
Qed.

(** On an input of [n] bytes, any two bounds of at least [n] give the same
    result. *)
Lemma Action_read_fuel (n fuel fuel' : nat) :
  (n <= fuel)%nat -> (n <= fuel')%nat ->
  agree_upto n (Action.read fuel) (Action.read fuel').
Proof.
  revert fuel fuel'. induction n as [|n IH]; intros fuel fuel' H H' input Hl.
  - destruct input; [|cbn in Hl; lia].
    destruct fuel, fuel'; reflexivity.
  - destruct fuel as [|fuel]; [lia|]. destruct fuel' as [|fuel']; [lia|].
    cbn [Action.read]. unfold readEnum, bind.
    destruct (readU8 input) as [[idx rest]|] eqn:E; [|reflexivity].
    assert (List.length rest <= n)%nat as Hrest.
    { apply readU8_consumes in E. lia. }
    unfold Action.values. generalize (Z.to_nat idx) as k. intros k.
    do 8 (destruct k as [|k]; [reflexivity|]).
    destruct k as [|k]; [|destruct k; reflexivity].
    cbn [nth_error].
    apply agree_bind with (n := n); [| |intros; apply agree_refl|exact Hrest].
    + apply agree_SignedDelegateAction; [apply IH; lia|apply shrinks_Action].
    + apply shrinks_SignedDelegateAction, shrinks_Action.
Qed.

Lemma agree_Transaction (n fuel fuel' : nat) :
  agree_upto n (Action.read fuel) (Action.read fuel') ->
  agree_upto n (Transaction.read fuel) (Transaction.read fuel').
Proof.
  intros Ha. unfold Transaction.read. do 5 same_field.
  apply agree_bind; [| |intros; apply agree_refl].
  - apply agree_readArray; [assumption|apply shrinks_Action].
  - apply shrinks_readArray, shrinks_Action.
Qed.

Lemma shrinks_Transaction (fuel : nat) : shrinks (Transaction.read fuel).
Proof.
  pose proof (shrinks_Action fuel). unfold Transaction.read. auto 20 with shrink.
Qed.

Lemma agree_SignedTransaction (n fuel fuel' : nat) :
  agree_upto n (Action.read fuel) (Action.read fuel') ->
  agree_upto n (SignedTransaction.read fuel) (SignedTransaction.read fuel').
Proof.
  intros Ha. unfold SignedTransaction.read.
  apply agree_bind; [| |intros; apply agree_refl].
  - apply agree_Transaction, Ha.
  - apply shrinks_Transaction.
Qed.

(** The bound that [deserialize] gives to the readers, the length of the
    buffer, is as good as any larger one: no input is refused for its
    nesting. *)
Lemma deserialize_fuel (c : Class.t) (buffer : bytes) (fuel : nat) :
  (List.length buffer <= fuel)%nat ->
  read_to_end (reader (SCHEMA c) fuel) buffer = deserialize c buffer.
Proof.
  intros H. unfold deserialize, read_to_end.
  assert (agree_upto (List.length buffer) (Action.read fuel)
            (Action.read (List.length buffer))) as Ha by (apply Action_read_fuel; lia).
  pose proof (shrinks_Action fuel) as Hs.
  enough (reader (SCHEMA c) fuel buffer = reader (SCHEMA c) (List.length buffer) buffer)
    as -> by reflexivity.
  destruct c; cbn [SCHEMA reader]; try reflexivity.
  - apply (agree_SignedTransaction _ _ _ Ha). lia.
  - apply (agree_Transaction _ _ _ Ha). lia.
  - apply Ha. lia.
  - apply (agree_NonDelegateAction _ _ _ Ha Hs). lia.
  - apply (agree_DelegateAction _ _ _ Ha Hs). lia.
  - apply (agree_SignedDelegateAction _ _ _ Ha Hs). lia.
Qed.

(** * The claims *)

Example sha256_of_abc :
  SHA256.hex (sha256_array (list_byte_of_string "abc")) =
  "ba7816bf8f01cfea414140de5dae2223b00361a396177a9cb410ff61f20015ad".
Proof. vm_compute. reflexivity. Qed.

Example sha256_of_empty :
  SHA256.hex (sha256_array []) =
  "e3b0c44298fc1c149afbf4c8996fb92427ae41e4649b934ca495991b7852b855".
Proof. vm_compute. reflexivity. Qed.

(** The wire bytes of a transfer of 1000: the discriminant 3, then the
    deposit on 16 bytes, least significant first. *)
Example encode_transfer :
  serialize Class.Action (transfer 1000) = Ok ([x03; xe8; x03] ++ repeat x00 14).
Proof. reflexivity. Qed.

Example decode_transfer :
  deserialize Class.Action ([x03; xe8; x03] ++ repeat x00 14) = Ok (transfer 1000).
Proof. reflexivity. Qed.

Example decode_function_call_access_key :
  result_bind
    (serialize Class.AccessKey (functionCallAccessKey "contract.test" ["foo"; "bar"] None))
    (deserialize Class.AccessKey) =
  Ok (functionCallAccessKey "contract.test" ["foo"; "bar"] None).
Proof. reflexivity. Qed.

Example decode_unknown_discriminant :
  deserialize Class.Action [x09] = Err UnknownDiscriminant.
Proof. reflexivity. Qed.

Example decode_truncated_public_key :
  deserialize Class.PublicKey (x00 :: repeat x01 31) = Err TruncatedInput.
Proof. reflexivity. Qed.

Example decode_trailing_bytes :
  deserialize Class.Action [x00; x00] = Err TrailingBytes.
Proof. reflexivity. Qed.

Example encode_out_of_range :
  serialize Class.Action (transfer (2 ^ 128)) = Err ValueOutOfRange.
Proof. reflexivity. Qed.

Lemma forallb_wrapped {A : Type} (wf_Action : A -> bool) (actions : list A) :
  forallb (NonDelegateAction.wf wf_Action) (map NonDelegateAction.mk actions) =
  forallb wf_Action actions.
Proof.
  induction actions as [|a l IH]; [reflexivity|].
  cbn [map forallb]. rewrite IH. reflexivity.
Qed.

(** C1.  Round trip: every well-formed instance [x] of every class of the
    schema, in particular every well-formed [Transaction] and
    [SignedTransaction], has an encoding, and decoding that encoding as the
    class of [x] gives back [x]. *)
Theorem decode_encode_round_trip (c : Class.t) (x : instance c) :
  well_formed c x = true ->
  exists b, serialize c x = Ok b /\ deserialize c b = Ok x.
Proof.
  intros H. destruct (serialize_well_formed c x H) as [b E].
  exists b. split; [exact E|]. apply deserialize_serialize. exact E.
Qed.

Lemma decode_encode_round_trip_witness :
  well_formed Class.Transaction sample_transaction = true /\
  well_formed Class.SignedTransaction
    (SignedTransaction.mk sample_transaction (Signature.mk 0 (repeat x07 64))) = true /\
  (exists b, Transaction_encode sample_transaction = Ok b /\
             Transaction_decode b = Ok sample_transaction) /\
  (exists b, SignedTransaction_encode
               (SignedTransaction.mk sample_transaction (Signature.mk 0 (repeat x07 64)))
             = Ok b /\
             SignedTransaction_decode b =
               Ok (SignedTransaction.mk sample_transaction (Signature.mk 0 (repeat x07 64)))).
Proof.
  split; [reflexivity|]. split; [reflexivity|]. split.
  - apply (decode_encode_round_trip Class.Transaction sample_transaction). reflexivity.
  - apply (decode_encode_round_trip Class.SignedTransaction
             (SignedTransaction.mk sample_transaction (Signature.mk 0 (repeat x07 64)))).
    reflexivity.
Defined.

(** C2.  Discriminant stability: the first byte of the encoding of an
    action is the index of its variant in the order 0 = CreateAccount,
    1 = DeployContract, 2 = FunctionCall, 3 = Transfer, 4 = Stake,
    5 = AddKey, 6 = DeleteKey, 7 = DeleteAccount, 8 = Delegate. *)
Theorem Action_first_byte_is_declared_index (a : Action.t) (b : bytes) :
  serialize Class.Action a = Ok b ->
  option_map Z_of_byte (hd_error b) = Some (declared_index a).
Proof.
  unfold serialize. cbn [SCHEMA writer]. intros E.
  destruct a as [x|x|x|x|x|x|x|x|x];
    cbn [Action.write] in E; cbv beta iota delta [Action.enum] in E;
    erewrite writeEnum_at in E by reflexivity;
    apply write_then_Ok in E; destruct E as (bi & bb & Ei & _ & ->);
    inversion Ei; reflexivity.
Qed.

Lemma Action_first_byte_is_declared_index_witness :
  serialize Class.Action sample_delegate = Ok sample_delegate_bytes /\
  option_map Z_of_byte (hd_error sample_delegate_bytes) = Some 8.
Proof.
  split; [reflexivity|].
  apply (Action_first_byte_is_declared_index sample_delegate sample_delegate_bytes).
  reflexivity.
Defined.

(** C3, as stated, fails: [delegateAction] given a list of actions that
    holds a [Delegate] action does not reject it; it returns the delegate
    action that wraps it. *)
Lemma delegateAction_accepts_delegate :
  holds_delegate [sample_delegate] /\
  exists signature,
    delegateAction "relayer.test" "bob.test" [sample_delegate] 4
      sample_blockHash sample_keyPair =
    Ok (Action.delegate
          (SignedDelegateAction.mk
             (DelegateAction.mk "relayer.test" "bob.test"
                [NonDelegateAction.mk sample_delegate] 4 sample_blockHash sample_publicKey)
             signature)).
Proof.
  split.
  - eexists. left. reflexivity.
  - eexists. vm_compute. reflexivity.
Qed.

(** C3, amended.  [delegateAction] does not look at the variants of the
    actions it is given: whenever the arguments are well-formed (the
    actions may be [Delegate] actions), it returns the [Delegate] action
    whose [DelegateAction] holds every given action, in order, each wrapped
    in a [NonDelegateAction], and whose signature is that of the key pair
    over the SHA-256 hash of the encoding of that [DelegateAction]. *)
Theorem delegateAction_wraps_every_action (senderId receiverId : string)
    (actions : list Action.t) (nonce : Z) (blockHash : bytes) (keyPair : KeyPair.t) :
  wf_string senderId = true ->
  wf_string receiverId = true ->
  wf_length actions = true ->
  forallb Action.wf actions = true ->
  fits 8 nonce = true ->
  List.length blockHash = 32%nat ->
  PublicKey.wf (KeyPair.getPublicKey keyPair) = true ->
  let wrapped :=
    DelegateAction.mk senderId receiverId (map NonDelegateAction.mk actions)
      nonce blockHash (KeyPair.getPublicKey keyPair) in
  exists message,
    serialize Class.DelegateAction wrapped = Ok message /\
    delegateAction senderId receiverId actions nonce blockHash keyPair =
    Ok (Action.delegate
          (SignedDelegateAction.mk wrapped
             (Signature.mk (PublicKey.keyType (KeyPair.getPublicKey keyPair))
                (KeyPairSignature.signature
                   (KeyPair.sign keyPair (sha256_array message)))))).
Proof.
  intros Hs Hr Hl Ha Hn Hb Hk wrapped. subst wrapped.
  unfold delegateAction, signDelegateActionData.
  change (map (fun action => NonDelegateAction.mk action) actions)
    with (map NonDelegateAction.mk actions).
  destruct (serialize_well_formed Class.DelegateAction
              (DelegateAction.mk senderId receiverId (map NonDelegateAction.mk actions)
                 nonce blockHash (KeyPair.getPublicKey keyPair))) as [message E].
  - cbn [well_formed]. unfold DelegateAction.wf.
    cbn [DelegateAction.senderId DelegateAction.receiverId DelegateAction.actions
         DelegateAction.nonce DelegateAction.blockHash DelegateAction.publicKey].
    rewrite Hs, Hr, Hn, Hk. apply Nat.eqb_eq in Hb. rewrite Hb.
    unfold wf_length in *. rewrite length_map, Hl.
    rewrite forallb_wrapped, Ha. reflexivity.
  - exists message. split; [exact E|]. rewrite E. reflexivity.
Qed.

Lemma delegateAction_wraps_every_action_witness :
  let wrapped :=
    DelegateAction.mk "relayer.test" "bob.test"
      (map NonDelegateAction.mk [sample_delegate; transfer 5]) 4
      sample_blockHash (KeyPair.getPublicKey sample_keyPair) in
  exists message,
    serialize Class.DelegateAction wrapped = Ok message /\
    delegateAction "relayer.test" "bob.test" [sample_delegate; transfer 5] 4
      sample_blockHash sample_keyPair =
    Ok (Action.delegate
          (SignedDelegateAction.mk wrapped
             (Signature.mk (PublicKey.keyType (KeyPair.getPublicKey sample_keyPair))
                (KeyPairSignature.signature
                   (KeyPair.sign sample_keyPair (sha256_array message)))))).
Proof.
  apply (delegateAction_wraps_every_action "relayer.test" "bob.test"
           [sample_delegate; transfer 5] 4 sample_blockHash sample_keyPair);
    reflexivity.
Defined.

(** C4.  Signing a transaction that encodes to [message], with a signer
    that answers the request of the pipeline with [answer], returns the
    pair of a hash and a signed transaction: the hash is the SHA-256 hash
    of [message], the signed transaction holds the transaction itself, the
    data of its signature are the bytes of [answer] and the key type of its
    signature is the key type of the public key of the transaction. *)
Theorem signTransaction_returns_hash_and_signed (transaction : Transaction.t)
    (signer : Signer.t) (accountId networkId : option string)
    (message : bytes) (answer : KeyPairSignature.t) :
  serialize Class.Transaction transaction = Ok message ->
  Signer.signMessage signer message accountId networkId = Ok answer ->
  exists hash signedTx,
    run signer (signTransaction (sign_transaction transaction accountId networkId)) =
      Ok (hash, signedTx) /\
    hash = sha256_array message /\
    SignedTransaction.transaction signedTx = transaction /\
    Signature.data (SignedTransaction.signature signedTx) =
      KeyPairSignature.signature answer /\
    Signature.keyType (SignedTransaction.signature signedTx) =
      PublicKey.keyType (Transaction.publicKey transaction).
Proof.
  intros E Hs. cbn [signTransaction]. unfold signTransactionObject.
  rewrite E. cbn [settle Async_bind signer_signMessage run]. rewrite Hs.
  cbn [run]. do 2 eexists. split; [reflexivity|]. repeat split.
Qed.

Lemma signTransaction_returns_hash_and_signed_witness :
  serialize Class.Transaction sample_transaction = Ok sample_message /\
  exists hash signedTx,
    run sample_signer
      (signTransaction (sign_transaction sample_transaction (Some "alice.test") None)) =
      Ok (hash, signedTx) /\
    hash = sha256_array sample_message /\
    SignedTransaction.transaction signedTx = sample_transaction /\
    Signature.data (SignedTransaction.signature signedTx) = repeat x07 64 /\
    Signature.keyType (SignedTransaction.signature signedTx) = 0.
Proof.
  split; [reflexivity|].
  apply (signTransaction_returns_hash_and_signed sample_transaction sample_signer
           (Some "alice.test") None sample_message (KeyPairSignature.mk (repeat x07 64)));
    reflexivity.
Defined.

(** C5, as stated, fails: the one message handed to [signMessage] when the
    sample transaction is signed is its encoding, which is not the SHA-256
    hash of that encoding. *)
Lemma signTransaction_signs_the_encoding :
  serialize Class.Transaction sample_transaction = Ok sample_message /\
  signed_messages sample_signer
    (signTransaction (sign_transaction sample_transaction (Some "alice.test") None)) =
    [sample_message] /\
  sample_message <> sha256_array sample_message.
Proof.
  split; [reflexivity|]. split; [reflexivity|].
  vm_compute. discriminate.
Qed.

(** C5, amended.  Signing a transaction that encodes to [message] awaits
    exactly one operation of the signer, [signMessage], and the message
    handed to it is [message] itself, the canonical encoding of the
    transaction; the SHA-256 hash of [message] is computed by the pipeline
    and returned as the first component of the result. *)
Theorem signer_receives_canonical_encoding (transaction : Transaction.t)
    (accountId networkId : option string) (message : bytes) :
  serialize Class.Transaction transaction = Ok message ->
  signTransaction (sign_transaction transaction accountId networkId) =
    Await_signMessage message accountId networkId
      (fun answer =>
         Resolve (sha256_array message,
                  SignedTransaction.mk transaction
                    (Signature.mk (PublicKey.keyType (Transaction.publicKey transaction))
                       (KeyPairSignature.signature answer)))) /\
  forall signer,
    signed_messages signer
      (signTransaction (sign_transaction transaction accountId networkId)) = [message].
Proof.
  intros E. cbn [signTransaction]. unfold signTransactionObject. rewrite E.
  cbn [settle Async_bind signer_signMessage]. split; [reflexivity|].
  intros signer. cbn [signed_messages].
  destruct (Signer.signMessage signer message accountId networkId); reflexivity.
Qed.

Lemma signer_receives_canonical_encoding_witness :
  serialize Class.Transaction sample_transaction = Ok sample_message /\
  forall signer,
    signed_messages signer
      (signTransaction (sign_transaction sample_transaction (Some "alice.test") None)) =
    [sample_message].
Proof.
  split; [reflexivity|].
  apply (signer_receives_canonical_encoding sample_transaction (Some "alice.test") None
           sample_message).
  reflexivity.
Defined.

(** C6, as stated, fails: the encoding of the sample transaction is not
    the concatenation of its fields in the order signerId, publicKey,
    nonce, receiverId, actions, blockHash. *)
Lemma Transaction_not_in_class_order :
  serialize Class.Transaction sample_transaction <>
  write_in_class_order sample_transaction.
Proof. vm_compute. discriminate. Qed.

(** C6, amended.  The encoding of a transaction is the concatenation,
    without padding, of the encodings of its fields in the order of the
    schema: signerId, publicKey, nonce, receiverId, blockHash, actions; the
    32 raw bytes of blockHash come before the encoded list of actions. *)
Theorem Transaction_fields_in_schema_order (x : Transaction.t) (b : bytes) :
  serialize Class.Transaction x = Ok b ->
  exists signerId publicKey nonce receiverId actions,
    Transaction.write_signerId (Transaction.signerId x) = Ok signerId /\
    PublicKey.write (Transaction.publicKey x) = Ok publicKey /\
    writeU64 (Transaction.nonce x) = Ok nonce /\
    writeString (Transaction.receiverId x) = Ok receiverId /\
    List.length (Transaction.blockHash x) = 32%nat /\
    writeArray Action.write (Transaction.actions x) = Ok actions /\
    b = signerId ++ publicKey ++ nonce ++ receiverId ++
        Transaction.blockHash x ++ actions.
Proof.
  unfold serialize. cbn [SCHEMA writer]. unfold Transaction.write. intros E.
  apply write_then_Ok in E. destruct E as (b1 & r1 & E1 & E & ->).
  apply write_then_Ok in E. destruct E as (b2 & r2 & E2 & E & ->).
  apply write_then_Ok in E. destruct E as (b3 & r3 & E3 & E & ->).
  apply write_then_Ok in E. destruct E as (b4 & r4 & E4 & E & ->).
  apply write_then_Ok in E. destruct E as (b5 & b6 & E5 & E6 & ->).
  unfold writeFixedArray in E5.
  destruct (Nat.eqb (List.length (Transaction.blockHash x)) 32) eqn:Hl; [|discriminate].
  inversion E5; subst b5. apply Nat.eqb_eq in Hl.
  exists b1, b2, b3, b4, b6. repeat split; assumption.
Qed.

Lemma Transaction_fields_in_schema_order_witness :
  serialize Class.Transaction sample_transaction = Ok sample_message /\
  exists signerId publicKey nonce receiverId actions,
    Transaction.write_signerId (Transaction.signerId sample_transaction) = Ok signerId /\
    PublicKey.write (Transaction.publicKey sample_transaction) = Ok publicKey /\
    writeU64 (Transaction.nonce sample_transaction) = Ok nonce /\
    writeString (Transaction.receiverId sample_transaction) = Ok receiverId /\
    List.length (Transaction.blockHash sample_transaction) = 32%nat /\
    writeArray Action.write (Transaction.actions sample_transaction) = Ok actions /\
    sample_message = signerId ++ publicKey ++ nonce ++ receiverId ++
                     Transaction.blockHash sample_transaction ++ actions.
Proof.
  split; [reflexivity|].
  apply (Transaction_fields_in_schema_order sample_transaction sample_message).
  reflexivity.
Defined.

(** C7.  The two call shapes agree.  Signing from the parts is the
    asynchronous function that awaits the public key of the signer for the
    account and network, builds the transaction with [createTransaction]
    and goes on as signing that transaction with the same account and
    network; run against any signer, it gives the result of signing the
    transaction so built with the same signer (and the failure of the
    signer, if it gives no key). *)
Theorem signTransaction_call_shapes_agree (signer : Signer.t) (receiverId : string)
    (nonce : Z) (actions : list Action.t) (blockHash : bytes)
    (accountId networkId : option string) :
  signTransaction (sign_parts receiverId nonce actions blockHash accountId networkId) =
    Await_getPublicKey accountId networkId
      (fun publicKey =>
         signTransaction
           (sign_transaction
              (createTransaction accountId publicKey receiverId nonce actions blockHash)
              accountId networkId)) /\
  run signer
    (signTransaction (sign_parts receiverId nonce actions blockHash accountId networkId)) =
  match Signer.getPublicKey signer accountId networkId with
  | Ok publicKey =>
      run signer
        (signTransaction
           (sign_transaction
              (createTransaction accountId publicKey receiverId nonce actions blockHash)
              accountId networkId))
  | Err e => Err e
  end.
Proof.
  split; [reflexivity|].
  cbn [signTransaction signer_getPublicKey Async_bind run].
  destruct (Signer.getPublicKey signer accountId networkId); reflexivity.
Qed.

(** C8.  [functionCall] with the default [stringify] and [jsContract]
    chooses by duck typing: an argument whose [byteLength] is defined and
    strictly equal to its [length], be it a byte array or a plain object
    with two such properties, is stored as it is; for any other argument
    the UTF-8 bytes of its JSON text are stored. *)
Theorem functionCall_stores_by_duck_typing (JSON_stringify : JsObject -> string)
    (methodName : string) (args : JsObject) (gas deposit : Z) :
  let action :=
    functionCall methodName args gas deposit (stringifyJsonOrBytes JSON_stringify) false in
  (looks_like_bytes args -> stored_args action = Some args) /\
  (~ looks_like_bytes args ->
   stored_args action = Some (Uint8Array (Buffer_from (JSON_stringify args)))).
Proof.
  cbn zeta. unfold functionCall, stringifyJsonOrBytes, looks_like_bytes, strict_equals.
  cbn [stored_args FunctionCall.args].
  destruct (JsValue_eq_dec (args_byteLength args) JsUndefined) as [Hu|Hu];
    destruct (JsValue_eq_dec (args_byteLength args) (args_length args)) as [He|He];
    cbn [negb andb]; split; intros H; try reflexivity; tauto.
Qed.

Lemma functionCall_stores_by_duck_typing_witness :
  looks_like_bytes sample_plain_object /\
  ~ looks_like_bytes (JsArray [JsNumber 1]) /\
  stored_args
    (functionCall "method" sample_plain_object 30 0
       (stringifyJsonOrBytes (fun _ => "[1]")) false) = Some sample_plain_object /\
  stored_args
    (functionCall "method" (JsArray [JsNumber 1]) 30 0
       (stringifyJsonOrBytes (fun _ => "[1]")) false) =
    Some (Uint8Array (Buffer_from "[1]")).
Proof.
  assert (H1 : looks_like_bytes sample_plain_object).
  { split; [discriminate | reflexivity]. }
  assert (H2 : ~ looks_like_bytes (JsArray [JsNumber 1])).
  { intros [H _]. apply H. reflexivity. }
  split; [exact H1|]. split; [exact H2|]. split.
  - apply (proj1 (functionCall_stores_by_duck_typing (fun _ => "[1]") "method"
                    sample_plain_object 30 0) H1).
  - apply (proj2 (functionCall_stores_by_duck_typing (fun _ => "[1]") "method"
                    (JsArray [JsNumber 1]) 30 0) H2).
Defined.

(** C9.  The access-key builders fix the nonce to zero: [fullAccessKey]
    has nonce 0, and [functionCallAccessKey] has nonce 0 and the
    [functionCall] permission that carries exactly the given receiver,
    method names and allowance. *)
Theorem access_key_builders_fix_nonce :
  AccessKey.nonce fullAccessKey = 0 /\
  forall (receiverId : string) (methodNames : list string) (allowance : option Z),
    AccessKey.nonce (functionCallAccessKey receiverId methodNames allowance) = 0 /\
    exists permission,
      AccessKey.permission (functionCallAccessKey receiverId methodNames allowance) =
        AccessKeyPermission.functionCall permission /\
      FunctionCallPermission.receiverId permission = receiverId /\
      FunctionCallPermission.methodNames permission = methodNames /\
      FunctionCallPermission.allowance permission = allowance.
Proof.
  split; [reflexivity|]. intros receiverId methodNames allowance.
  split; [reflexivity|]. eexists. repeat split.
Qed.

(** C10, as stated, fails: signing from the parts without an account
    identifier, with a signer that answers every request, does not return
    a signed transaction; the call is rejected when the transaction with
    the undefined signerId is encoded. *)
Lemma signTransaction_parts_without_accountId :
  run sample_signer
    (signTransaction (sign_parts "bob.test" 7 [transfer 1000] sample_blockHash None None)) =
  Err TypeError.
Proof. reflexivity. Qed.

(** C10, amended.  In the build-then-sign shape, once the signer has given
    its public key, the transaction that is built has the [accountId]
    argument, as it is, for signerId, also when it is omitted, and that
    transaction is the one handed to the signing step; every signed
    transaction the call returns holds that transaction, so its signerId
    is the account identifier passed.  When the account identifier is
    omitted the call is rejected at the encoding of the transaction. *)
Theorem signTransaction_parts_signerId (signer : Signer.t) (receiverId : string)
    (nonce : Z) (actions : list Action.t) (blockHash : bytes)
    (accountId networkId : option string) (publicKey : PublicKey.t) :
  Signer.getPublicKey signer accountId networkId = Ok publicKey ->
  let transaction :=
    createTransaction accountId publicKey receiverId nonce actions blockHash in
  Transaction.signerId transaction = accountId /\
  run signer
    (signTransaction (sign_parts receiverId nonce actions blockHash accountId networkId)) =
    run signer (signTransactionObject transaction accountId networkId) /\
  (forall hash signedTx,
     run signer
       (signTransaction (sign_parts receiverId nonce actions blockHash accountId networkId)) =
       Ok (hash, signedTx) ->
     SignedTransaction.transaction signedTx = transaction /\
     Transaction.signerId (SignedTransaction.transaction signedTx) = accountId) /\
  (accountId = None ->
   run signer
     (signTransaction (sign_parts receiverId nonce actions blockHash accountId networkId)) =
     Err TypeError).
Proof.
  intros Hk transaction.
  assert (Hrun : run signer
            (signTransaction
               (sign_parts receiverId nonce actions blockHash accountId networkId)) =
          run signer (signTransactionObject transaction accountId networkId)).
  { cbn [signTransaction signer_getPublicKey Async_bind run]. rewrite Hk. reflexivity. }
  split; [reflexivity|]. split; [exact Hrun|]. split.
  - intros hash signedTx. rewrite Hrun. unfold signTransactionObject.
    destruct (serialize Class.Transaction transaction) as [message|e];
      cbn [settle Async_bind signer_signMessage run]; [|discriminate].
    destruct (Signer.signMessage signer message accountId networkId);
      cbn [run]; [|discriminate].
    intros H. inversion H. split; reflexivity.
  - intros ->. rewrite Hrun. reflexivity.
Qed.

Lemma signTransaction_parts_signerId_witness :
  exists hash signedTx,
    run sample_signer
      (signTransaction
         (sign_parts "bob.test" 7 [transfer 1000] sample_blockHash
            (Some "alice.test") None)) = Ok (hash, signedTx) /\
    Transaction.signerId (SignedTransaction.transaction signedTx) = Some "alice.test".
Proof.
  pose proof (signTransaction_parts_signerId sample_signer "bob.test" 7 [transfer 1000]
                sample_blockHash (Some "alice.test") None sample_publicKey eq_refl) as H.
  cbv zeta in H. destruct H as (_ & _ & H & _).
  eexists. eexists. split; [vm_compute; reflexivity|].
  eapply H. vm_compute. reflexivity.
Defined.

(** * Further properties

    ** Only well-formed values have an encoding *)

Lemma fits_of_UInt (width : nat) (v : Z) (b : bytes) :
  writeUInt width v = Ok b -> fits width v = true.
Proof. intros H. apply writeUInt_Ok in H. tauto. Qed.

Lemma fits_wf_length {A : Type} (l : list A) :
  fits 4 (Z.of_nat (List.length l)) = true -> wf_length l = true.
Proof.
  intros H. apply fits_range in H. change (8 * Z.of_nat 4) with 32 in H.
  unfold wf_length. apply Z.ltb_lt. lia.
Qed.

Lemma wf_of_String (s : string) (b : bytes) : writeString s = Ok b -> wf_string s = true.
Proof.
  unfold writeString. intros H. apply write_then_Ok in H.
  destruct H as (b1 & b2 & E & _ & _). apply fits_of_UInt in E.
  apply fits_wf_length, E.
Qed.

Lemma wf_of_FixedArray (len : nat) (array b : bytes) :
  writeFixedArray len array = Ok b -> Nat.eqb (List.length array) len = true.
Proof.
  unfold writeFixedArray. destruct (Nat.eqb (List.length array) len); [reflexivity|discriminate].
Qed.

Lemma wf_of_all {A : Type} (w : A -> Writer) (wf : A -> bool) (l : list A) (b : bytes) :
  (forall x bx, In x l -> w x = Ok bx -> wf x = true) ->
  write_all w l = Ok b -> forallb wf l = true.
Proof.
  intros Hw E. apply write_all_parts in E. apply forallb_forall. intros x Hx.
  rewrite Forall_forall in E. destruct (E x Hx) as (bx & Ex & _). eauto.
Qed.

Lemma wf_of_Array {A : Type} (w : A -> Writer) (wf : A -> bool) (l : list A) (b : bytes) :
  (forall x bx, In x l -> w x = Ok bx -> wf x = true) ->
  writeArray w l = Ok b -> wf_length l = true /\ forallb wf l = true.
Proof.
  intros Hw E. unfold writeArray in E. apply write_then_Ok in E.
  destruct E as (b1 & b2 & E1 & E2 & _). split.
  - apply fits_wf_length. eapply fits_of_UInt, E1.
  - eapply wf_of_all; eassumption.
Qed.

Lemma wf_of_u8_array (array b : bytes) :
  write_u8_array array = Ok b -> wf_length array = true.
Proof.
  unfold write_u8_array, writeArray. intros E. apply write_then_Ok in E.
  destruct E as (b1 & b2 & E1 & _ & _). apply fits_wf_length. eapply fits_of_UInt, E1.
Qed.

Lemma writeEnum_Ok (names : list string) (name : string) (body : Writer) (b : bytes) :
  writeEnum names name body = Ok b -> exists bb, body = Ok bb.
Proof.
  unfold writeEnum. destruct (index_of name names); [|discriminate].
  intros E. apply write_then_Ok in E. destruct E as (b1 & b2 & _ & E & _). eauto.
Qed.

Ltac wf_facts :=
  repeat match goal with
  | H : writeU8 _ = Ok _ |- _ => apply fits_of_UInt in H
  | H : writeU64 _ = Ok _ |- _ => apply fits_of_UInt in H
  | H : writeU128 _ = Ok _ |- _ => apply fits_of_UInt in H
  | H : writeString _ = Ok _ |- _ => apply wf_of_String in H
  | H : writeFixedArray _ _ = Ok _ |- _ => apply wf_of_FixedArray in H
  | H : write_u8_array _ = Ok _ |- _ => apply wf_of_u8_array in H
  end.

Ltac wf_conj :=
  repeat match goal with
  | |- _ && _ = true => apply andb_true_intro; split
  end;
  try assumption.

Lemma wf_of_PublicKey (x : PublicKey.t) (b : bytes) :
  PublicKey.write x = Ok b -> PublicKey.wf x = true.
Proof.
  unfold PublicKey.write, PublicKey.wf. intros E. split_writes. wf_facts. wf_conj.
Qed.

Lemma wf_of_Signature (x : Signature.t) (b : bytes) :
  Signature.write x = Ok b -> Signature.wf x = true.
Proof.
  unfold Signature.write, Signature.wf. intros E. split_writes. wf_facts. wf_conj.
Qed.

Lemma wf_of_FunctionCallPermission (x : FunctionCallPermission.t) (b : bytes) :
  FunctionCallPermission.write x = Ok b -> FunctionCallPermission.wf x = true.
Proof.
  unfold FunctionCallPermission.write, FunctionCallPermission.wf. intros E.
  apply write_then_Ok in E. destruct E as (b1 & r1 & E1 & E & _).
  apply write_then_Ok in E. destruct E as (b2 & b3 & E2 & E3 & _).
  apply (wf_of_Array writeString wf_string) in E3;
    [|intros s bs _; apply wf_of_String].
  destruct E3 as [Hl Hall]. wf_facts. wf_conj.
  destruct (FunctionCallPermission.allowance x) as [a|]; [|reflexivity].
  cbn [writeOption] in E1. apply write_then_Ok in E1.
  destruct E1 as (? & ? & _ & E1 & _). eapply fits_of_UInt, E1.
Qed.

Lemma wf_of_AccessKeyPermission (p : AccessKeyPermission.t) (b : bytes) :
  AccessKeyPermission.write p = Ok b -> AccessKeyPermission.wf p = true.
Proof.
  unfold AccessKeyPermission.write. intros E. apply writeEnum_Ok in E.
  destruct E as [bb E]. destruct p as [x|x]; cbn [AccessKeyPermission.wf];
    [eapply wf_of_FunctionCallPermission, E | reflexivity].
Qed.

Lemma wf_of_AccessKey (x : AccessKey.t) (b : bytes) :
  AccessKey.write x = Ok b -> AccessKey.wf x = true.
Proof.
  unfold AccessKey.write, AccessKey.wf. intros E. split_writes. wf_facts.
  match goal with H : AccessKeyPermission.write _ = Ok _ |- _ =>
    apply wf_of_AccessKeyPermission in H end.
  wf_conj.
Qed.

Lemma wf_of_FunctionCall (x : FunctionCall.t) (b : bytes) :
  FunctionCall.write x = Ok b -> FunctionCall.wf x = true.
Proof.
  unfold FunctionCall.write, FunctionCall.wf. intros E.
  destruct (FunctionCall.args x) as [contents| |]; cbn [FunctionCall.write_args] in E;
    split_writes; try discriminate.
  wf_facts. wf_conj.
Qed.

Lemma wf_of_simple_Action (a : Action.t) (bb : bytes) :
  match a with
  | Action.createAccount x => CreateAccount.write x
  | Action.deployContract x => DeployContract.write x
  | Action.functionCall x => FunctionCall.write x
  | Action.transfer x => Transfer.write x
  | Action.stake x => Stake.write x
  | Action.addKey x => AddKey.write x
  | Action.deleteKey x => DeleteKey.write x
  | Action.deleteAccount x => DeleteAccount.write x
  | Action.delegate x => Err TypeError
  end = Ok bb -> Action.wf a = true.
Proof.
  destruct a as [x|x|x|x|x|x|x|x|x]; cbn [Action.wf]; intros E; try discriminate.
  - reflexivity.
  - unfold DeployContract.write in E. unfold DeployContract.wf. wf_facts. assumption.
  - eapply wf_of_FunctionCall, E.
  - unfold Transfer.write in E. unfold Transfer.wf. wf_facts. assumption.
  - unfold Stake.write in E. unfold Stake.wf. split_writes. wf_facts.
    match goal with H : PublicKey.write _ = Ok _ |- _ => apply wf_of_PublicKey in H end.
    wf_conj.
  - unfold AddKey.write in E. unfold AddKey.wf. split_writes.
    match goal with H : PublicKey.write _ = Ok _ |- _ => apply wf_of_PublicKey in H end.
    match goal with H : AccessKey.write _ = Ok _ |- _ => apply wf_of_AccessKey in H end.
    wf_conj.
  - unfold DeleteKey.write in E. unfold DeleteKey.wf. eapply wf_of_PublicKey, E.
  - unfold DeleteAccount.write in E. unfold DeleteAccount.wf. wf_facts. assumption.
Qed.

Section HoldingActionsOnlyWf.

Context {A : Type} (write_Action : A -> Writer) (wf_Action : A -> bool).

Lemma wf_of_DelegateAction (x : DelegateAction.t A) (b : bytes) :
  (forall n bn, In n (DelegateAction.actions x) ->
     write_Action (NonDelegateAction.action n) = Ok bn ->
     wf_Action (NonDelegateAction.action n) = true) ->
  DelegateAction.write write_Action x = Ok b -> DelegateAction.wf wf_Action x = true.
Proof.
  intros Hn. unfold DelegateAction.write, DelegateAction.wf. intros E.
  apply write_then_Ok in E. destruct E as (b1 & r1 & E1 & E & _).
  apply write_then_Ok in E. destruct E as (b2 & r2 & E2 & E & _).
  apply write_then_Ok in E. destruct E as (b3 & r3 & E3 & E & _).
  apply (wf_of_Array _ (NonDelegateAction.wf wf_Action)) in E3; [|exact Hn].
  destruct E3 as [Hl Hall]. split_writes. wf_facts.
  match goal with H : PublicKey.write _ = Ok _ |- _ => apply wf_of_PublicKey in H end.
  wf_conj.
Qed.

Lemma wf_of_SignedDelegateAction (x : SignedDelegateAction.t A) (b : bytes) :
  (forall n bn, In n (DelegateAction.actions (SignedDelegateAction.delegateAction x)) ->
     write_Action (NonDelegateAction.action n) = Ok bn ->
     wf_Action (NonDelegateAction.action n) = true) ->
  SignedDelegateAction.write write_Action x = Ok b ->
  SignedDelegateAction.wf wf_Action x = true.
Proof.
  intros Hn. unfold SignedDelegateAction.write, SignedDelegateAction.wf. intros E.
  split_writes.
  match goal with H : DelegateAction.write _ _ = Ok _ |- _ =>
    apply wf_of_DelegateAction in H; [|exact Hn] end.
  match goal with H : Signature.write _ = Ok _ |- _ => apply wf_of_Signature in H end.
  wf_conj.
Qed.

End HoldingActionsOnlyWf.

Lemma wf_of_Action_bounded (k : nat) (a : Action.t) (b : bytes) :
  (Action.depth a <= k)%nat -> Action.write a = Ok b -> Action.wf a = true.
Proof.
  revert a b. induction k as [|k IH]; intros a b Hd E.
  - pose proof (Action_depth_pos a). lia.
  - destruct a as [x|x|x|x|x|x|x|x|x]; cbn [Action.write] in E;
      apply writeEnum_Ok in E; destruct E as [bb E].
    1-8: eapply wf_of_simple_Action; exact E.
    cbn [Action.wf]. eapply wf_of_SignedDelegateAction; [|exact E].
    intros n bn Hn En. eapply IH; [|exact En].
    pose proof (depth_of_wrapped x k Hd) as Hw. rewrite Forall_forall in Hw. auto.
Qed.

Lemma wf_of_Action (a : Action.t) (b : bytes) :
  Action.write a = Ok b -> Action.wf a = true.
Proof. apply (wf_of_Action_bounded (Action.depth a)). lia. Qed.

Lemma wf_of_Transaction (x : Transaction.t) (b : bytes) :
  Transaction.write x = Ok b -> Transaction.wf x = true.
Proof.
  unfold Transaction.write, Transaction.wf. intros E.
  apply write_then_Ok in E. destruct E as (b1 & r1 & E1 & E & _).
  apply write_then_Ok in E. destruct E as (b2 & r2 & E2 & E & _).
  apply write_then_Ok in E. destruct E as (b3 & r3 & E3 & E & _).
  apply write_then_Ok in E. destruct E as (b4 & r4 & E4 & E & _).
  apply write_then_Ok in E. destruct E as (b5 & b6 & E5 & E6 & _).
  apply (wf_of_Array _ Action.wf) in E6;
    [|intros a ba _; apply wf_of_Action].
  destruct E6 as [Hl Hall]. apply wf_of_PublicKey in E2. wf_facts.
  destruct (Transaction.signerId x) as [s|]; cbn [Transaction.write_signerId] in E1;
    [|discriminate].
  apply wf_of_String in E1. wf_conj.
Qed.

Lemma wf_of_SignedTransaction (x : SignedTransaction.t) (b : bytes) :
  SignedTransaction.write x = Ok b -> SignedTransaction.wf x = true.
Proof.
  unfold SignedTransaction.write, SignedTransaction.wf. intros E. split_writes.
  match goal with H : Transaction.write _ = Ok _ |- _ => apply wf_of_Transaction in H end.
  match goal with H : Signature.write _ = Ok _ |- _ => apply wf_of_Signature in H end.
  wf_conj.
Qed.

Lemma well_formed_of_serialize (c : Class.t) (x : instance c) (b : bytes) :
  serialize c x = Ok b -> well_formed c x = true.
Proof.
  unfold serialize. destruct c; cbn [SCHEMA writer instance well_formed] in *; intros E.
  - eapply wf_of_Signature, E.
  - eapply wf_of_SignedTransaction, E.
  - eapply wf_of_Transaction, E.
  - eapply wf_of_PublicKey, E.
  - eapply wf_of_AccessKey, E.
  - eapply wf_of_AccessKeyPermission, E.
  - eapply wf_of_FunctionCallPermission, E.
  - reflexivity.
  - eapply wf_of_Action, E.
  - reflexivity.
  - eapply (wf_of_simple_Action (Action.deployContract x)), E.
  - eapply wf_of_FunctionCall, E.
  - eapply (wf_of_simple_Action (Action.transfer x)), E.
  - eapply (wf_of_simple_Action (Action.stake x)), E.
  - eapply (wf_of_simple_Action (Action.addKey x)), E.
  - eapply (wf_of_simple_Action (Action.deleteKey x)), E.
  - eapply (wf_of_simple_Action (Action.deleteAccount x)), E.
  - unfold NonDelegateAction.write in E. unfold NonDelegateAction.wf.
    eapply wf_of_Action, E.
  - eapply wf_of_DelegateAction; [|exact E]. intros n bn _. apply wf_of_Action.
  - eapply wf_of_SignedDelegateAction; [|exact E]. intros n bn _. apply wf_of_Action.
Qed.

(** ** Reading an encoding in front of other bytes *)

Lemma reader_undoes_writer (c : Class.t) (x : instance c) (b : bytes) (fuel : nat) :
  serialize c x = Ok b -> (List.length b <= fuel)%nat ->
  round_trips (writer (SCHEMA c)) (reader (SCHEMA c) fuel) x.
Proof.
  unfold serialize. intros E Hf.
  destruct c; cbn [SCHEMA writer reader instance] in *; auto with rt.
  - apply round_trips_SignedTransaction.
    unfold SignedTransaction.write in E. split_writes.
    match goal with
    | H : Transaction.write _ = Ok _ |- _ =>
        apply Transaction_depth_le in H; eapply Forall_le_trans; [|exact H]
    end.
    rewrite !length_app in Hf. lia.
  - apply round_trips_Transaction.
    eapply Forall_le_trans; [exact Hf|]. apply Transaction_depth_le. exact E.
  - apply round_trips_Action. apply Action_depth_le in E. lia.
  - apply round_trips_NonDelegateAction. apply round_trips_Action.
    apply Action_depth_le in E. lia.
  - apply round_trips_DelegateAction.
    eapply Forall_impl; [|apply (DelegateAction_depth_le _ _ E)].
    intros n Hn. apply round_trips_Action. cbn beta in Hn. lia.
  - apply round_trips_SignedDelegateAction.
    unfold SignedDelegateAction.write in E. split_writes.
    match goal with
    | H : DelegateAction.write _ _ = Ok _ |- _ =>
        apply DelegateAction_depth_le in H; eapply Forall_impl; [|exact H]
    end.
    intros n Hn. apply round_trips_Action. rewrite length_app in Hf. cbn beta in Hn. lia.
Qed.

Lemma deserialize_followed (c : Class.t) (x : instance c) (b extra : bytes) :
  serialize c x = Ok b ->
  reader (SCHEMA c) (List.length (b ++ extra)) (b ++ extra) = Ok (x, extra).
Proof.
  intros E. apply (reader_undoes_writer c x b); [exact E| |exact E].
  rewrite length_app. lia.
Qed.

(** X3.  Decoding refuses trailing bytes: the encoding of an instance
    followed by at least one more byte does not decode as its class. *)
Theorem deserialize_rejects_trailing_bytes (c : Class.t) (x : instance c)
    (b extra : bytes) :
  serialize c x = Ok b -> extra <> [] ->
  deserialize c (b ++ extra) = Err TrailingBytes.
Proof.
  intros E Hx. unfold deserialize, read_to_end.
  rewrite (deserialize_followed c x b extra E).
  destruct extra; [contradiction|reflexivity].
Qed.



(** ** Fixed widths *)

Lemma readU8_cons (d : byte) (rest : bytes) : readU8 (d :: rest) = Ok (Z_of_byte d, rest).
Proof.
  cbn. rewrite Z.add_0_r. reflexivity.
Qed.

Lemma readU8_nil : readU8 [] = Err TruncatedInput.
Proof. reflexivity. Qed.

Lemma read_keyed_array (A : Type) (mk : Z -> bytes -> A) (len : nat) (buffer : bytes) :
  read_to_end
    (keyType <- readU8 ;; data <- readFixedArray len ;; ret (mk keyType data))%reader
    buffer =
  if Nat.ltb (List.length buffer) (S len) then Err TruncatedInput
  else if Nat.eqb (List.length buffer) (S len)
       then Ok (mk (Z_of_byte (hd x00 buffer)) (tl buffer))
       else Err TrailingBytes.
Proof.
  unfold read_to_end. destruct buffer as [|d rest]; [reflexivity|].
  unfold bind at 1. rewrite readU8_cons. unfold bind, readFixedArray, readBuffer, ret.
  cbn [List.length hd tl]. change (Nat.ltb (S (List.length rest)) (S len))
    with (Nat.ltb (List.length rest) len).
  change (Nat.eqb (S (List.length rest)) (S len)) with (Nat.eqb (List.length rest) len).
  destruct (Nat.ltb (List.length rest) len) eqn:Hlt; [reflexivity|].
  apply Nat.ltb_ge in Hlt.
  destruct (Nat.eqb (List.length rest) len) eqn:Heq.
  - apply Nat.eqb_eq in Heq. subst len. rewrite firstn_all, skipn_all. reflexivity.
  - apply Nat.eqb_neq in Heq.
    destruct (skipn len rest) eqn:Hs; [|reflexivity].
    apply (f_equal (@List.length byte)) in Hs. rewrite length_skipn in Hs.
    cbn in Hs. lia.
Qed.

(** X5.  Fixed widths are enforced: a public key decodes from exactly 33
    bytes and a signature from exactly 65, the key type then the data;
    fewer bytes are a truncated input and more are trailing bytes. *)
Theorem fixed_width_keys_and_signatures (buffer : bytes) :
  deserialize Class.PublicKey buffer =
    (if Nat.ltb (List.length buffer) 33 then Err TruncatedInput
     else if Nat.eqb (List.length buffer) 33
          then Ok (PublicKey.mk (Z_of_byte (hd x00 buffer)) (tl buffer))
          else Err TrailingBytes) /\
  deserialize Class.Signature buffer =
    (if Nat.ltb (List.length buffer) 65 then Err TruncatedInput
     else if Nat.eqb (List.length buffer) 65
          then Ok (Signature.mk (Z_of_byte (hd x00 buffer)) (tl buffer))
          else Err TrailingBytes).
Proof.
  split.
  - apply (read_keyed_array _ PublicKey.mk 32).
  - apply (read_keyed_array _ Signature.mk 64).
Qed.

(** X6.  A discriminant outside the declared variants is refused: a first
    byte of 9 or more does not decode as an action, and one of 2 or more
    does not decode as an access key permission, whatever follows. *)
Theorem unknown_discriminants_are_rejected (d : byte) (rest : bytes) :
  (9 <= Z_of_byte d -> deserialize Class.Action (d :: rest) = Err UnknownDiscriminant) /\
  (2 <= Z_of_byte d ->
   deserialize Class.AccessKeyPermission (d :: rest) = Err UnknownDiscriminant).
Proof.
  split; intros Hd; unfold deserialize, read_to_end; cbn [SCHEMA reader List.length];
    cbn [Action.read]; unfold AccessKeyPermission.read, readEnum;
    unfold bind at 1; rewrite readU8_cons.
  - replace (nth_error _ _) with (@None (string * Reader Action.t)); [reflexivity|].
    symmetry. apply nth_error_None. cbn [Action.values List.length]. lia.
  - replace (nth_error _ _) with (@None (string * Reader AccessKeyPermission.t));
      [reflexivity|].
    symmetry. apply nth_error_None. cbn [AccessKeyPermission.values List.length]. lia.
Qed.

Lemma unknown_discriminants_are_rejected_witness :
  deserialize Class.Action [x09; x00] = Err UnknownDiscriminant /\
  deserialize Class.AccessKeyPermission [x02] = Err UnknownDiscriminant.
Proof.
  split.
  - apply (proj1 (unknown_discriminants_are_rejected x09 [x00])). vm_compute. discriminate.
  - apply (proj2 (unknown_discriminants_are_rejected x02 [])). vm_compute. discriminate.
Defined.

(** ** The hash *)

Lemma length_be_bytes (width : nat) (v : Z) : List.length (SHA256.be_bytes width v) = width.
Proof. induction width as [|w IH]; cbn [SHA256.be_bytes List.length]; congruence. Qed.

Lemma length_round (s : list Z) (kw : Z * Z) :
  List.length (SHA256.round s kw) = List.length s.
Proof.
  unfold SHA256.round.
  do 9 (destruct s as [|? s]; try reflexivity).
Qed.

Lemma length_rounds (l : list (Z * Z)) (s : list Z) :
  List.length (fold_left SHA256.round l s) = List.length s.
Proof.
  revert s. induction l as [|kw l IH]; intros s; [reflexivity|].
  cbn [fold_left]. rewrite IH. apply length_round.
Qed.

Lemma length_compress (h : list Z) (block : bytes) :
  List.length (SHA256.compress h block) = List.length h.
Proof.
  unfold SHA256.compress. rewrite length_map, length_combine, length_rounds. lia.
Qed.

Lemma length_compress_all (blocks : list bytes) (h : list Z) :
  List.length (fold_left SHA256.compress blocks h) = List.length h.
Proof.
  revert h. induction blocks as [|b l IH]; intros h; [reflexivity|].
  cbn [fold_left]. rewrite IH. apply length_compress.
Qed.

Lemma length_flat_map_be (l : list Z) :
  List.length (flat_map (SHA256.be_bytes 4) l) = (4 * List.length l)%nat.
Proof.
  induction l as [|x l IH]; [reflexivity|].
  cbn [flat_map]. rewrite length_app, length_be_bytes, IH. cbn [List.length]. lia.
Qed.

Lemma length_sha256_array (message : bytes) : List.length (sha256_array message) = 32%nat.
Proof.
  unfold sha256_array, SHA256.digest. rewrite length_flat_map_be, length_compress_all.
  reflexivity.
Qed.

(** ** Layouts and sizes *)

Lemma writeString_length (s : string) (b : bytes) :
  writeString s = Ok b ->
  List.length b = (4 + List.length (list_byte_of_string s))%nat.
Proof.
  unfold writeString. intros E. apply write_then_Ok in E.
  destruct E as (b1 & b2 & E1 & E2 & ->). apply writeUInt_length in E1.
  inversion E2. rewrite length_app. lia.
Qed.

Lemma PublicKey_length (x : PublicKey.t) (b : bytes) :
  PublicKey.write x = Ok b -> List.length b = 33%nat.
Proof.
  unfold PublicKey.write. intros E. apply write_then_Ok in E.
  destruct E as (b1 & b2 & E1 & E2 & ->). apply writeUInt_length in E1.
  pose proof (wf_of_FixedArray _ _ _ E2) as Hl. apply Nat.eqb_eq in Hl.
  unfold writeFixedArray in E2.
  destruct (Nat.eqb (List.length (PublicKey.data x)) 32); [|discriminate].
  inversion E2. rewrite length_app. lia.
Qed.

Lemma Signature_bytes (x : Signature.t) (b : bytes) :
  Signature.write x = Ok b ->
  b = toArray_le 1 (Signature.keyType x) ++ Signature.data x /\
  List.length (Signature.data x) = 64%nat.
Proof.
  unfold Signature.write. intros E. apply write_then_Ok in E.
  destruct E as (b1 & b2 & E1 & E2 & ->). apply writeUInt_Ok in E1. destruct E1 as [_ ->].
  unfold writeFixedArray in E2.
  destruct (Nat.eqb (List.length (Signature.data x)) 64) eqn:Hl; [|discriminate].
  inversion E2. apply Nat.eqb_eq in Hl. auto.
Qed.

Lemma Transaction_length (x : Transaction.t) (b : bytes) :
  Transaction.write x = Ok b ->
  exists signerId actions,
    Transaction.signerId x = Some signerId /\
    write_all Action.write (Transaction.actions x) = Ok actions /\
    List.length b =
      (85 + List.length (list_byte_of_string signerId) +
       List.length (list_byte_of_string (Transaction.receiverId x)) +
       List.length actions)%nat.
Proof.
  unfold Transaction.write. intros E.
  apply write_then_Ok in E. destruct E as (b1 & r1 & E1 & E & ->).
  apply write_then_Ok in E. destruct E as (b2 & r2 & E2 & E & ->).
  apply write_then_Ok in E. destruct E as (b3 & r3 & E3 & E & ->).
  apply write_then_Ok in E. destruct E as (b4 & r4 & E4 & E & ->).
  apply write_then_Ok in E. destruct E as (b5 & b6 & E5 & E6 & ->).
  unfold writeArray in E6.
  apply write_then_Ok in E6. destruct E6 as (b7 & b8 & E7 & E8 & ->).
  destruct (Transaction.signerId x) as [s|]; cbn [Transaction.write_signerId] in E1;
    [|discriminate].
  exists s, b8. split; [reflexivity|]. split; [exact E8|].
  apply writeString_length in E1. apply PublicKey_length in E2.
  apply writeUInt_length in E3. apply writeString_length in E4.
  apply writeUInt_length in E7.
  pose proof (wf_of_FixedArray _ _ _ E5) as Hl. apply Nat.eqb_eq in Hl.
  unfold writeFixedArray in E5.
  destruct (Nat.eqb (List.length (Transaction.blockHash x)) 32); [|discriminate].
  inversion E5; subst b5. rewrite !length_app. lia.
Qed.

(** ** The signing pipeline, step by step *)

Lemma run_signTransactionObject (signer : Signer.t) (transaction : Transaction.t)
    (accountId networkId : option string) :
  run signer (signTransactionObject transaction accountId networkId) =
  match serialize Class.Transaction transaction with
  | Ok message =>
      match Signer.signMessage signer message accountId networkId with
      | Ok answer =>
          Ok (sha256_array message,
              SignedTransaction.mk transaction
                (Signature.mk (PublicKey.keyType (Transaction.publicKey transaction))
                   (KeyPairSignature.signature answer)))
      | Err e => Err e
      end
  | Err e => Err e
  end.
Proof.
  unfold signTransactionObject.
  destruct (serialize Class.Transaction transaction) as [message|e]; [|reflexivity].
  cbn [settle Async_bind signer_signMessage run].
  destruct (Signer.signMessage signer message accountId networkId); reflexivity.
Qed.

Lemma signed_messages_signTransactionObject (signer : Signer.t)
    (transaction : Transaction.t) (accountId networkId : option string) :
  signed_messages signer (signTransactionObject transaction accountId networkId) =
  match serialize Class.Transaction transaction with
  | Ok message => [message]
  | Err _ => []
  end.
Proof.
  unfold signTransactionObject.
  destruct (serialize Class.Transaction transaction) as [message|e]; [|reflexivity].
  cbn [settle Async_bind signer_signMessage signed_messages].
  destruct (Signer.signMessage signer message accountId networkId); reflexivity.
Qed.

Lemma run_signTransaction_parts (signer : Signer.t) (receiverId : string) (nonce : Z)
    (actions : list Action.t) (blockHash : bytes) (accountId networkId : option string) :
  run signer
    (signTransaction (sign_parts receiverId nonce actions blockHash accountId networkId)) =
  match Signer.getPublicKey signer accountId networkId with
  | Ok publicKey =>
      run signer
        (signTransactionObject
           (createTransaction accountId publicKey receiverId nonce actions blockHash)
           accountId networkId)
  | Err e => Err e
  end.
Proof.
  cbn [signTransaction signer_getPublicKey Async_bind run].
  destruct (Signer.getPublicKey signer accountId networkId); reflexivity.
Qed.

Lemma signed_messages_signTransaction_parts (signer : Signer.t) (receiverId : string)
    (nonce : Z) (actions : list Action.t) (blockHash : bytes)
    (accountId networkId : option string) :
  signed_messages signer
    (signTransaction (sign_parts receiverId nonce actions blockHash accountId networkId)) =
  match Signer.getPublicKey signer accountId networkId with
  | Ok publicKey =>
      signed_messages signer
        (signTransactionObject
           (createTransaction accountId publicKey receiverId nonce actions blockHash)
           accountId networkId)
  | Err e => []
  end.
Proof.
  cbn [signTransaction signer_getPublicKey Async_bind signed_messages].
  destruct (Signer.getPublicKey signer accountId networkId); reflexivity.
Qed.

Lemma Transaction_at_least_85 (x : Transaction.t) (b : bytes) :
  serialize Class.Transaction x = Ok b -> (85 <= List.length b)%nat.
Proof.
  intros E. apply Transaction_length in E. destruct E as (s & a & _ & _ & ->). lia.
Qed.

(** X9.  In either call shape, when [signTransaction] returns a pair, the
    hash has 32 bytes and is the SHA-256 hash of the encoding of the very
    transaction held by the returned signed transaction; that encoding is
    the one message the signer was given, and it differs from the hash. *)
Theorem signTransaction_hash_matches_result (signer : Signer.t)
    (args : signTransaction_args) (hash : bytes) (signedTx : SignedTransaction.t) :
  run signer (signTransaction args) = Ok (hash, signedTx) ->
  List.length hash = 32%nat /\
  exists message,
    serialize Class.Transaction (SignedTransaction.transaction signedTx) = Ok message /\
    hash = sha256_array message /\
    signed_messages signer (signTransaction args) = [message] /\
    message <> hash.
Proof.
  assert (Hobj : forall transaction accountId networkId,
            run signer (signTransactionObject transaction accountId networkId) =
              Ok (hash, signedTx) ->
            List.length hash = 32%nat /\
            exists message,
              serialize Class.Transaction (SignedTransaction.transaction signedTx) =
                Ok message /\
              hash = sha256_array message /\
              signed_messages signer
                (signTransactionObject transaction accountId networkId) = [message] /\
              message <> hash).
  { intros transaction accountId networkId.
    rewrite run_signTransactionObject, signed_messages_signTransactionObject.
    destruct (serialize Class.Transaction transaction) as [message|e] eqn:E; [|discriminate].
    destruct (Signer.signMessage signer message accountId networkId); [|discriminate].
    intros H. inversion H. subst hash signedTx. cbn [SignedTransaction.transaction].
    split; [apply length_sha256_array|]. exists message. repeat split; [exact E|].
    intros Heq. apply (f_equal (@List.length byte)) in Heq.
    rewrite length_sha256_array in Heq. apply Transaction_at_least_85 in E. lia. }
  destruct args as [transaction accountId networkId
                   |receiverId nonce actions blockHash accountId networkId].
  - apply Hobj.
  - rewrite run_signTransaction_parts, signed_messages_signTransaction_parts.
    destruct (Signer.getPublicKey signer accountId networkId); [|discriminate].
    apply Hobj.
Qed.

Lemma signTransaction_hash_matches_result_witness :
  exists hash signedTx,
    run sample_signer
      (signTransaction
         (sign_parts "bob.test" 7 [transfer 1000] sample_blockHash
            (Some "alice.test") None)) = Ok (hash, signedTx) /\
    List.length hash = 32%nat.
Proof.
  eexists. eexists. split; [vm_compute; reflexivity|].
  eapply (signTransaction_hash_matches_result sample_signer
            (sign_parts "bob.test" 7 [transfer 1000] sample_blockHash
               (Some "alice.test") None)).
  vm_compute. reflexivity.
Defined.

(** X10.  No retry: in either call shape [signTransaction] asks the signer
    to sign at most once, and exactly once when it returns a result. *)
Theorem signTransaction_signs_at_most_once (signer : Signer.t)
    (args : signTransaction_args) :
  (List.length (signed_messages signer (signTransaction args)) <= 1)%nat /\
  (forall result, run signer (signTransaction args) = Ok result ->
     List.length (signed_messages signer (signTransaction args)) = 1%nat).
Proof.
  assert (Hobj : forall transaction accountId networkId,
            (List.length (signed_messages signer
               (signTransactionObject transaction accountId networkId)) <= 1)%nat /\
            (forall result,
               run signer (signTransactionObject transaction accountId networkId) =
                 Ok result ->
               List.length (signed_messages signer
                 (signTransactionObject transaction accountId networkId)) = 1%nat)).
  { intros transaction accountId networkId.
    rewrite run_signTransactionObject, signed_messages_signTransactionObject.
    destruct (serialize Class.Transaction transaction) as [message|e]; cbn [List.length].
    - split; [lia|reflexivity].
    - split; [lia|discriminate]. }
  destruct args as [transaction accountId networkId
                   |receiverId nonce actions blockHash accountId networkId].
  - apply Hobj.
  - rewrite run_signTransaction_parts, signed_messages_signTransaction_parts.
    destruct (Signer.getPublicKey signer accountId networkId).
    + apply Hobj.
    + cbn [List.length]. split; [lia|discriminate].
Qed.

Lemma signTransaction_signs_at_most_once_witness :
  List.length
    (signed_messages sample_signer
       (signTransaction (sign_transaction sample_transaction (Some "alice.test") None))) =
  1%nat.
Proof.
  eapply (proj2 (signTransaction_signs_at_most_once sample_signer
                   (sign_transaction sample_transaction (Some "alice.test") None))).
  vm_compute. reflexivity.
Defined.

(** X11.  A failure of [signMessage] is propagated as it is: the call is
    rejected with the error of the signer, after the one request. *)
Theorem signTransaction_propagates_signing_failure (signer : Signer.t)
    (transaction : Transaction.t) (accountId networkId : option string)
    (message : bytes) (e : Error) :
  serialize Class.Transaction transaction = Ok message ->
  Signer.signMessage signer message accountId networkId = Err e ->
  run signer (signTransaction (sign_transaction transaction accountId networkId)) = Err e /\
  signed_messages signer
    (signTransaction (sign_transaction transaction accountId networkId)) = [message].
Proof.
  intros E Hs. cbn [signTransaction].
  rewrite run_signTransactionObject, signed_messages_signTransactionObject, E, Hs.
  split; reflexivity.
Qed.

Lemma signTransaction_propagates_signing_failure_witness :
  let signer :=
    Signer.mk (fun _ _ => Ok sample_publicKey)
      (fun _ _ _ => Err (SignerFailure "rejected")) in
  run signer
    (signTransaction (sign_transaction sample_transaction (Some "alice.test") None)) =
    Err (SignerFailure "rejected") /\
  signed_messages signer
    (signTransaction (sign_transaction sample_transaction (Some "alice.test") None)) =
    [sample_message].
Proof.
  apply (signTransaction_propagates_signing_failure
           (Signer.mk (fun _ _ => Ok sample_publicKey)
              (fun _ _ _ => Err (SignerFailure "rejected")))
           sample_transaction (Some "alice.test") None sample_message
           (SignerFailure "rejected")); reflexivity.
Defined.

(** X12.  In the build-then-sign shape a failure of [getPublicKey] is
    propagated as it is, and the signer is never asked to sign. *)
Theorem signTransaction_without_key (signer : Signer.t) (receiverId : string) (nonce : Z)
    (actions : list Action.t) (blockHash : bytes) (accountId networkId : option string)
    (e : Error) :
  Signer.getPublicKey signer accountId networkId = Err e ->
  run signer
    (signTransaction (sign_parts receiverId nonce actions blockHash accountId networkId)) =
    Err e /\
  signed_messages signer
    (signTransaction (sign_parts receiverId nonce actions blockHash accountId networkId)) =
    [].
Proof.
  intros Hk. rewrite run_signTransaction_parts, signed_messages_signTransaction_parts, Hk.
  split; reflexivity.
Qed.

Lemma signTransaction_without_key_witness :
  let signer :=
    Signer.mk (fun _ _ => Err (SignerFailure "no key"))
      (fun _ _ _ => Ok (KeyPairSignature.mk (repeat x07 64))) in
  run signer
    (signTransaction
       (sign_parts "bob.test" 7 [transfer 1000] sample_blockHash (Some "alice.test") None)) =
    Err (SignerFailure "no key") /\
  signed_messages signer
    (signTransaction
       (sign_parts "bob.test" 7 [transfer 1000] sample_blockHash (Some "alice.test") None)) =
    [].
Proof.
  apply (signTransaction_without_key
           (Signer.mk (fun _ _ => Err (SignerFailure "no key"))
              (fun _ _ _ => Ok (KeyPairSignature.mk (repeat x07 64))))
           "bob.test" 7 [transfer 1000] sample_blockHash (Some "alice.test") None
           (SignerFailure "no key")); reflexivity.
Defined.







(** ** The delegate builder *)

Lemma delegateAction_unfolded (senderId receiverId : string) (actions : list Action.t)
    (nonce : Z) (blockHash : bytes) (keyPair : KeyPair.t) :
  let wrapped :=
    DelegateAction.mk senderId receiverId (map NonDelegateAction.mk actions)
      nonce blockHash (KeyPair.getPublicKey keyPair) in
  delegateAction senderId receiverId actions nonce blockHash keyPair =
  match serialize Class.DelegateAction wrapped with
  | Ok message =>
      Ok (Action.delegate
            (SignedDelegateAction.mk wrapped
               (Signature.mk (PublicKey.keyType (KeyPair.getPublicKey keyPair))
                  (KeyPairSignature.signature
                     (KeyPair.sign keyPair (sha256_array message))))))
  | Err e => Err e
  end.
Proof.
  cbv zeta. unfold delegateAction, signDelegateActionData.
  change (map (fun action => NonDelegateAction.mk action) actions)
    with (map NonDelegateAction.mk actions).
  destruct (serialize Class.DelegateAction _); reflexivity.
Qed.





(** ** Function call arguments *)

Lemma stringify_bytes (JSON_stringify : JsObject -> string) (contents : bytes) :
  stringifyJsonOrBytes JSON_stringify (Uint8Array contents) = Uint8Array contents.
Proof.
  unfold stringifyJsonOrBytes, strict_equals. cbn [args_byteLength args_length].
  destruct (JsValue_eq_dec (JsNumber (Z.of_nat (List.length contents))) JsUndefined);
    [discriminate|].
  destruct (JsValue_eq_dec (JsNumber (Z.of_nat (List.length contents)))
              (JsNumber (Z.of_nat (List.length contents)))); [reflexivity|congruence].
Qed.

Lemma stringify_cases (JSON_stringify : JsObject -> string) (args : JsObject) :
  (looks_like_bytes args /\ stringifyJsonOrBytes JSON_stringify args = args) \/
  (~ looks_like_bytes args /\
   stringifyJsonOrBytes JSON_stringify args =
     Uint8Array (Buffer_from (JSON_stringify args))).
Proof.
  unfold stringifyJsonOrBytes, looks_like_bytes, strict_equals.
  destruct (JsValue_eq_dec (args_byteLength args) JsUndefined) as [Hu|Hu];
    destruct (JsValue_eq_dec (args_byteLength args) (args_length args)) as [He|He];
    cbn [negb andb]; tauto.
Qed.

(** X18.  [stringifyJsonOrBytes] is idempotent: what it returns is taken
    for bytes when given to it again. *)
Theorem stringifyJsonOrBytes_idempotent (JSON_stringify : JsObject -> string)
    (args : JsObject) :
  stringifyJsonOrBytes JSON_stringify (stringifyJsonOrBytes JSON_stringify args) =
  stringifyJsonOrBytes JSON_stringify args.
Proof.
  destruct (stringify_cases JSON_stringify args) as [[_ H]|[_ H]]; rewrite H.
  - exact H.
  - apply stringify_bytes.
Qed.

(** X19.  What [functionCall] stores, by kind of argument: a byte array is
    stored as it is, whatever [jsContract]; an array is never taken for
    bytes and its JSON text is stored; with [jsContract] set the argument
    is stored as it is and [stringify] is not used; and with the defaults
    the stored value is a byte array unless the argument is a plain object,
    which is then stored itself. *)
Theorem functionCall_args_by_kind (JSON_stringify : JsObject -> string)
    (methodName : string) (gas deposit : Z) :
  (forall contents jsContract,
     stored_args
       (functionCall methodName (Uint8Array contents) gas deposit
          (stringifyJsonOrBytes JSON_stringify) jsContract) =
     Some (Uint8Array contents)) /\
  (forall elements,
     stored_args
       (functionCall methodName (JsArray elements) gas deposit
          (stringifyJsonOrBytes JSON_stringify) false) =
     Some (Uint8Array (Buffer_from (JSON_stringify (JsArray elements))))) /\
  (forall args stringify,
     stored_args (functionCall methodName args gas deposit stringify true) = Some args) /\
  (forall args,
     exists stored,
       stored_args
         (functionCall methodName args gas deposit
            (stringifyJsonOrBytes JSON_stringify) false) = Some stored /\
       ((exists contents, stored = Uint8Array contents) \/
        (exists properties, args = PlainObject properties /\ stored = args))).
Proof.
  split; [|split; [|split]].
  - intros contents [|]; unfold functionCall; cbn [stored_args FunctionCall.args];
      [reflexivity|]. rewrite stringify_bytes. reflexivity.
  - intros elements. unfold functionCall. cbn [stored_args FunctionCall.args].
    destruct (stringify_cases JSON_stringify (JsArray elements)) as [[[H _] _]|[_ H]].
    + exfalso. apply H. reflexivity.
    + rewrite H. reflexivity.
  - intros args stringify. reflexivity.
  - intros args. unfold functionCall. cbn [stored_args FunctionCall.args].
    eexists. split; [reflexivity|].
    destruct (stringify_cases JSON_stringify args) as [[[Hu _] H]|[_ H]]; rewrite H.
    + destruct args as [contents|elements|properties].
      * left. eexists. reflexivity.
      * exfalso. apply Hu. reflexivity.
      * right. eexists. split; reflexivity.
    + left. eexists. reflexivity.
Qed.

Lemma forallb_false_of_In {A : Type} (f : A -> bool) (l : list A) (x : A) :
  In x l -> f x = false -> forallb f l = false.
Proof.
  intros Hx Hf. destruct (forallb f l) eqn:E; [|reflexivity].
  rewrite forallb_forall in E. rewrite (E x Hx) in Hf. discriminate.
Qed.

Lemma ill_formed_action_ill_formed_transaction (x : Transaction.t) (a : Action.t) :
  In a (Transaction.actions x) -> Action.wf a = false -> Transaction.wf x = false.
Proof.
  intros Ha Hwf. unfold Transaction.wf.
  rewrite (forallb_false_of_In Action.wf _ a Ha Hwf).
  rewrite andb_false_r. reflexivity.
Qed.

(** X20.  A plain object that passes the duck-typing test is stored by
    [functionCall] but has no encoding: a transaction that holds such an
    action is rejected by [signTransaction] without asking the signer to
    sign. *)
Theorem plain_object_taken_for_bytes_is_never_signed (JSON_stringify : JsObject -> string)
    (methodName : string) (properties : list (string * JsValue)) (gas deposit : Z)
    (signer : Signer.t) (transaction : Transaction.t)
    (accountId networkId : option string) :
  looks_like_bytes (PlainObject properties) ->
  In (functionCall methodName (PlainObject properties) gas deposit
        (stringifyJsonOrBytes JSON_stringify) false)
     (Transaction.actions transaction) ->
  (exists e,
     run signer (signTransaction (sign_transaction transaction accountId networkId)) =
     Err e) /\
  signed_messages signer
    (signTransaction (sign_transaction transaction accountId networkId)) = [].
Proof.
  intros Hduck Hin.
  assert (Hwf : Transaction.wf transaction = false).
  { eapply ill_formed_action_ill_formed_transaction; [exact Hin|].
    unfold functionCall.
    destruct (stringify_cases JSON_stringify (PlainObject properties)) as [[_ H]|[H _]];
      [|contradiction].
    rewrite H. cbn [Action.wf]. unfold FunctionCall.wf. cbn [FunctionCall.args].
    rewrite andb_false_r. reflexivity. }
  cbn [signTransaction].
  rewrite run_signTransactionObject, signed_messages_signTransactionObject.
  destruct (serialize Class.Transaction transaction) as [message|e] eqn:E.
  - apply well_formed_of_serialize in E. cbn [well_formed] in E. congruence.
  - split; [exists e|]; reflexivity.
Qed.

Lemma plain_object_taken_for_bytes_is_never_signed_witness :
  let transaction :=
    createTransaction (Some "alice.test") sample_publicKey "bob.test" 7
      [functionCall "method" sample_plain_object 30 0
         (stringifyJsonOrBytes (fun _ => "{}")) false] sample_blockHash in
  (exists e,
     run sample_signer (signTransaction (sign_transaction transaction None None)) = Err e) /\
  signed_messages sample_signer
    (signTransaction (sign_transaction transaction None None)) = [].
Proof.
  apply (plain_object_taken_for_bytes_is_never_signed (fun _ => "{}") "method"
           [("byteLength", JsNumber 3); ("length", JsNumber 3)] 30 0 sample_signer
           (createTransaction (Some "alice.test") sample_publicKey "bob.test" 7
              [functionCall "method" sample_plain_object 30 0
                 (stringifyJsonOrBytes (fun _ => "{}")) false] sample_blockHash)
           None None).
  - split; [discriminate|reflexivity].
  - left. reflexivity.
Defined.

(** ** Sizes *)

(** X7.  The encoding of a transaction has no padding: its length is 85
    bytes (three 4-byte length prefixes, the 33 bytes of the key, the 8 of
    the nonce and the 32 of the block hash) plus the UTF-8 lengths of the
    signer and receiver identifiers and the lengths of the encoded
    actions. *)
Theorem Transaction_encoded_length (x : Transaction.t) (b : bytes) :
  serialize Class.Transaction x = Ok b ->
  exists signerId actions,
    Transaction.signerId x = Some signerId /\
    write_all Action.write (Transaction.actions x) = Ok actions /\
    List.length b =
      (85 + List.length (list_byte_of_string signerId) +
       List.length (list_byte_of_string (Transaction.receiverId x)) +
       List.length actions)%nat.
Proof. apply Transaction_length. Qed.

Lemma Transaction_encoded_length_witness :
  List.length sample_message = (85 + 10 + 8 + (17 + 1))%nat.
Proof.
  destruct (Transaction_encoded_length sample_transaction sample_message eq_refl)
    as (s & a & Hs & Ha & Hl).
  inversion Hs. subst s. vm_compute in Ha. inversion Ha. subst a. exact Hl.
Defined.

Lemma UInt_length_of (width : nat) (v : Z) (b : bytes) :
  writeUInt width v = Ok b -> List.length b = width.
Proof. apply writeUInt_length. Qed.

(** X8.  The actions built by [createAccount], [transfer], [stake] and
    [deleteKey] encode on exactly 1, 17, 50 and 34 bytes. *)
Theorem fixed_size_actions :
  (forall b, serialize Class.Action createAccount = Ok b -> List.length b = 1%nat) /\
  (forall deposit b,
     serialize Class.Action (transfer deposit) = Ok b -> List.length b = 17%nat) /\
  (forall amount publicKey b,
     serialize Class.Action (stake amount publicKey) = Ok b -> List.length b = 50%nat) /\
  (forall publicKey b,
     serialize Class.Action (deleteKey publicKey) = Ok b -> List.length b = 34%nat).
Proof.
  unfold serialize. cbn [SCHEMA writer].
  repeat split; intros;
    match goal with
    | H : Action.write _ = Ok _ |- _ =>
        cbn [Action.write createAccount transfer stake deleteKey] in H;
        cbv beta iota delta [Action.enum] in H;
        erewrite writeEnum_at in H by reflexivity;
        unfold CreateAccount.write, Transfer.write, Stake.write, DeleteKey.write in H
    end;
    split_writes;
    repeat match goal with
    | H : writeU8 _ = Ok _ |- _ => apply UInt_length_of in H
    | H : writeU128 _ = Ok _ |- _ => apply UInt_length_of in H
    | H : PublicKey.write _ = Ok _ |- _ => apply PublicKey_length in H
    end;
    rewrite ?length_app; cbn [List.length]; lia.
Qed.

Lemma fixed_size_actions_witness :
  exists b, serialize Class.Action (transfer 1000) = Ok b /\ List.length b = 17%nat.
Proof.
  eexists. split; [vm_compute; reflexivity|].
  eapply (proj1 (proj2 fixed_size_actions) 1000). vm_compute. reflexivity.
Defined.

(** ** A delegate action inside a transaction *)

Lemma write_all_In {A : Type} (w : A -> Writer) (l : list A) (b : bytes) (x : A) :
  write_all w l = Ok b -> In x l ->
  exists bx before after, w x = Ok bx /\ b = before ++ bx ++ after.
Proof.
  revert b. induction l as [|y l IH]; intros b E Hx; [contradiction|].
  cbn [write_all fold_right] in E. fold (write_all w l) in E.
  apply write_then_Ok in E. destruct E as (by_ & bl & Ey & El & ->).
  destruct Hx as [->|Hx].
  - exists by_, [], bl. auto.
  - destruct (IH bl El Hx) as (bx & before & after & Ex & ->).
    exists bx, (by_ ++ before), after. split; [exact Ex|]. rewrite <- app_assoc. reflexivity.
Qed.

Lemma Transaction_holds_action_bytes (x : Transaction.t) (b : bytes) (a : Action.t) :
  serialize Class.Transaction x = Ok b -> In a (Transaction.actions x) ->
  exists ba before after, serialize Class.Action a = Ok ba /\ b = before ++ ba ++ after.
Proof.
  unfold serialize. cbn [SCHEMA writer]. unfold Transaction.write, writeArray.
  intros E Ha.
  apply write_then_Ok in E. destruct E as (b1 & r1 & E1 & E & ->).
  apply write_then_Ok in E. destruct E as (b2 & r2 & E2 & E & ->).
  apply write_then_Ok in E. destruct E as (b3 & r3 & E3 & E & ->).
  apply write_then_Ok in E. destruct E as (b4 & r4 & E4 & E & ->).
  apply write_then_Ok in E. destruct E as (b5 & r5 & E5 & E & ->).
  apply write_then_Ok in E. destruct E as (b6 & b7 & E6 & E7 & ->).
  destruct (write_all_In _ _ _ a E7 Ha) as (ba & before & after & Ea & ->).
  exists ba, (b1 ++ b2 ++ b3 ++ b4 ++ b5 ++ b6 ++ before), after.
  split; [exact Ea|]. rewrite <- !app_assoc. reflexivity.
Qed.

(** X17.  Two signing domains: when an action returned by
    [delegateAction] is among the actions of a transaction that
    [signTransaction] signs, the message given to the outer signer holds,
    as one contiguous part, the message whose hash the inner key pair
    signed. *)
Theorem relayed_delegate_action_keeps_inner_message (senderId receiverId : string)
    (actions : list Action.t) (nonce : Z) (blockHash : bytes) (keyPair : KeyPair.t)
    (a : Action.t) (signer : Signer.t) (transaction : Transaction.t)
    (accountId networkId : option string) (hash : bytes) (signedTx : SignedTransaction.t) :
  delegateAction senderId receiverId actions nonce blockHash keyPair = Ok a ->
  In a (Transaction.actions transaction) ->
  run signer (signTransaction (sign_transaction transaction accountId networkId)) =
    Ok (hash, signedTx) ->
  exists inner outer before after,
    serialize Class.DelegateAction
      (DelegateAction.mk senderId receiverId (map NonDelegateAction.mk actions)
         nonce blockHash (KeyPair.getPublicKey keyPair)) = Ok inner /\
    signed_messages signer
      (signTransaction (sign_transaction transaction accountId networkId)) = [outer] /\
    outer = before ++ inner ++ after /\
    a = Action.delegate
          (SignedDelegateAction.mk
             (DelegateAction.mk senderId receiverId (map NonDelegateAction.mk actions)
                nonce blockHash (KeyPair.getPublicKey keyPair))
             (Signature.mk (PublicKey.keyType (KeyPair.getPublicKey keyPair))
                (KeyPairSignature.signature (KeyPair.sign keyPair (sha256_array inner))))) /\
    hash = sha256_array outer.
Proof.
  pose proof (delegateAction_unfolded senderId receiverId actions nonce blockHash keyPair)
    as Hd. cbv zeta in Hd. rewrite Hd. clear Hd.
  set (wrapped := DelegateAction.mk senderId receiverId (map NonDelegateAction.mk actions)
                    nonce blockHash (KeyPair.getPublicKey keyPair)).
  destruct (serialize Class.DelegateAction wrapped) as [inner|e] eqn:E; [|discriminate].
  intros Ha Hin. inversion Ha as [Ha']. clear Ha.
  cbn [signTransaction].
  rewrite run_signTransactionObject, signed_messages_signTransactionObject.
  destruct (serialize Class.Transaction transaction) as [outer|e] eqn:Eo; [|discriminate].
  destruct (Signer.signMessage signer outer accountId networkId); [|discriminate].
  intros Hrun. inversion Hrun. subst hash signedTx.
  destruct (Transaction_holds_action_bytes transaction outer a Eo Hin)
    as (ba & before & after & Ea & Hb).
  rewrite <- Ha' in Ea. unfold serialize in Ea. cbn [SCHEMA writer Action.write] in Ea.
  cbv beta iota delta [Action.enum] in Ea. erewrite writeEnum_at in Ea by reflexivity.
  apply write_then_Ok in Ea. destruct Ea as (bi & bs & _ & Es & ->).
  unfold SignedDelegateAction.write in Es.
  cbn [SignedDelegateAction.delegateAction SignedDelegateAction.signature] in Es.
  apply write_then_Ok in Es. destruct Es as (bd & bsig & Ed & _ & ->).
  unfold serialize in E. cbn [SCHEMA writer] in E. rewrite E in Ed. inversion Ed. subst bd.
  exists inner, outer, (before ++ bi), (bsig ++ after).
  split; [reflexivity|]. split; [reflexivity|]. split.
  - rewrite Hb. rewrite <- !app_assoc. reflexivity.
  - split; reflexivity.
Qed.

(** ** What the readers return is well-formed *)

Lemma yields_ret {A : Type} (a : A) (P : A -> Prop) : P a -> yields (ret a) P.
Proof. intros H input x rest E. inversion E. subst. exact H. Qed.

Lemma yields_fail {A : Type} (e : Error) (P : A -> Prop) : yields (fail e) P.
Proof. intros input x rest E. discriminate. Qed.

Lemma yields_bind {A B : Type} (r : Reader A) (k : A -> Reader B)
    (P : A -> Prop) (Q : B -> Prop) :
  yields r P -> (forall a, P a -> yields (k a) Q) -> yields (bind r k) Q.
Proof.
  intros Hr Hk input x rest. unfold bind.
  destruct (r input) as [[a mid]|] eqn:E; [|discriminate].
  intros H. eapply Hk; [|exact H]. eapply Hr, E.
Qed.

Lemma yields_weaken {A : Type} (r : Reader A) (P Q : A -> Prop) :
  yields r P -> (forall a, P a -> Q a) -> yields r Q.
Proof. intros H HPQ input x rest E. eapply HPQ, H, E. Qed.

Lemma yields_readBuffer (len : nat) :
  yields (readBuffer len) (fun b => List.length b = len).
Proof.
  intros input x rest. unfold readBuffer.
  destruct (Nat.ltb (List.length input) len) eqn:Hl; [discriminate|].
  apply Nat.ltb_ge in Hl. intros E. inversion E. apply firstn_length_le. exact Hl.
Qed.

Lemma fromArray_le_range (b : bytes) :
  0 <= fromArray_le b < 2 ^ (8 * Z.of_nat (List.length b)).
Proof.
  induction b as [|x b IH].
  - cbn. lia.
  - cbn [fromArray_le List.length].
    replace (8 * Z.of_nat (S (List.length b))) with (8 + 8 * Z.of_nat (List.length b))
      by lia.
    rewrite Z.pow_add_r by lia. change (2 ^ 8) with 256.
    pose proof (Z_of_byte_range x). lia.
Qed.

Lemma yields_readUInt (width : nat) :
  yields (readUInt width) (fun v => fits width v = true).
Proof.
  unfold readUInt. eapply yields_bind; [apply yields_readBuffer|].
  intros b Hb. apply yields_ret. apply fits_range. rewrite <- Hb. apply fromArray_le_range.
Qed.

Lemma yields_readString : yields readString (fun s => wf_string s = true).
Proof.
  unfold readString. eapply yields_bind; [apply (yields_readUInt 4)|].
  intros len Hlen. eapply yields_bind; [apply yields_readBuffer|].
  intros b Hb. apply yields_ret. unfold wf_string, wf_length.
  rewrite list_byte_of_string_of_list_byte, Hb.
  apply fits_range in Hlen. change (8 * Z.of_nat 4) with 32 in Hlen.
  apply Z.ltb_lt. lia.
Qed.

Lemma yields_read_times {A : Type} (n : nat) (r : Reader A) (P : A -> Prop) :
  yields r P -> yields (read_times n r) (fun l => List.length l = n /\ Forall P l).
Proof.
  intros Hr. induction n as [|n IH]; cbn [read_times].
  - apply yields_ret. auto.
  - eapply yields_bind; [exact Hr|]. intros x Hx.
    eapply yields_bind; [exact IH|]. intros l [Hl Hall].
    apply yields_ret. cbn [List.length]. auto.
Qed.

Lemma yields_readArray {A : Type} (r : Reader A) (wf : A -> bool) :
  yields r (fun x => wf x = true) ->
  yields (readArray r) (fun l => wf_length l = true /\ forallb wf l = true).
Proof.
  intros Hr. unfold readArray. eapply yields_bind; [apply (yields_readUInt 4)|].
  intros len Hlen. eapply yields_weaken; [apply yields_read_times, Hr|].
  cbn beta. intros l [Hl Hall]. split.
  - unfold wf_length. rewrite Hl.
    apply fits_range in Hlen. change (8 * Z.of_nat 4) with 32 in Hlen.
    apply Z.ltb_lt. lia.
  - apply forallb_forall. rewrite Forall_forall in Hall. exact Hall.
Qed.

Lemma yields_read_u8_array : yields read_u8_array (fun b => wf_length b = true).
Proof.
  unfold read_u8_array.
  eapply yields_bind; [apply (yields_readArray readU8 (fun _ => true))|].
  - intros input x rest _. reflexivity.
  - intros l [Hl _]. apply yields_ret. unfold wf_length in *. rewrite length_map. exact Hl.
Qed.

Lemma yields_readEnum {A : Type} (values : list (string * Reader A)) (P : A -> Prop) :
  Forall (fun v => yields (snd v) P) values -> yields (readEnum values) P.
Proof.
  intros H. unfold readEnum. eapply yields_bind; [apply (yields_readUInt 1)|].
  intros idx _. destruct (nth_error values (Z.to_nat idx)) as [[name body]|] eqn:E;
    [|apply yields_fail].
  apply nth_error_In in E. rewrite Forall_forall in H. apply (H _ E).
Qed.

Ltac yield_field lemma :=
  eapply yields_bind; [apply lemma | cbn beta; intros ? ?].

Lemma yields_PublicKey : yields PublicKey.read (fun x => PublicKey.wf x = true).
Proof.
  unfold PublicKey.read. yield_field (yields_readUInt 1). yield_field (yields_readBuffer 32).
  apply yields_ret. unfold PublicKey.wf. cbn [PublicKey.keyType PublicKey.data].
  apply andb_true_intro. split; [assumption|]. apply Nat.eqb_eq. assumption.
Qed.

Lemma yields_Signature : yields Signature.read (fun x => Signature.wf x = true).
Proof.
  unfold Signature.read. yield_field (yields_readUInt 1). yield_field (yields_readBuffer 64).
  apply yields_ret. unfold Signature.wf. cbn [Signature.keyType Signature.data].
  apply andb_true_intro. split; [assumption|]. apply Nat.eqb_eq. assumption.
Qed.

Lemma yields_FunctionCallPermission :
  yields FunctionCallPermission.read (fun x => FunctionCallPermission.wf x = true).
Proof.
  unfold FunctionCallPermission.read.
  eapply yields_bind with
    (P := fun o => match o with Some a => fits 16 a | None => true end = true).
  { unfold readOption. yield_field (yields_readUInt 1).
    destruct (_ =? 0); [apply yields_ret; reflexivity|].
    yield_field (yields_readUInt 16). apply yields_ret. assumption. }
  intros allowance Ha. yield_field yields_readString.
  eapply yields_bind; [apply (yields_readArray readString wf_string), yields_readString|].
  intros names [Hl Hall]. apply yields_ret. unfold FunctionCallPermission.wf.
  cbn [FunctionCallPermission.allowance FunctionCallPermission.receiverId
       FunctionCallPermission.methodNames].
  wf_conj.
Qed.

Lemma yields_AccessKeyPermission :
  yields AccessKeyPermission.read (fun p => AccessKeyPermission.wf p = true).
Proof.
  unfold AccessKeyPermission.read. apply yields_readEnum.
  repeat constructor; cbn [snd].
  - yield_field yields_FunctionCallPermission. apply yields_ret. assumption.
  - eapply yields_bind with (P := fun _ => True); [intros ? ? ? _; exact I|].
    intros. apply yields_ret. reflexivity.
Qed.

Lemma yields_AccessKey : yields AccessKey.read (fun x => AccessKey.wf x = true).
Proof.
  unfold AccessKey.read. yield_field (yields_readUInt 8).
  yield_field yields_AccessKeyPermission. apply yields_ret. unfold AccessKey.wf.
  cbn [AccessKey.nonce AccessKey.permission]. wf_conj.
Qed.

Lemma yields_FunctionCall : yields FunctionCall.read (fun x => FunctionCall.wf x = true).
Proof.
  unfold FunctionCall.read. yield_field yields_readString.
  yield_field yields_read_u8_array. yield_field (yields_readUInt 8).
  yield_field (yields_readUInt 16). apply yields_ret. unfold FunctionCall.wf.
  cbn [FunctionCall.methodName FunctionCall.args FunctionCall.gas FunctionCall.deposit].
  wf_conj.
Qed.

Lemma yields_DeployContract :
  yields DeployContract.read (fun x => DeployContract.wf x = true).
Proof.
  unfold DeployContract.read. yield_field yields_read_u8_array.
  apply yields_ret. assumption.
Qed.

Lemma yields_Transfer : yields Transfer.read (fun x => Transfer.wf x = true).
Proof.
  unfold Transfer.read. yield_field (yields_readUInt 16). apply yields_ret. assumption.
Qed.

Lemma yields_Stake : yields Stake.read (fun x => Stake.wf x = true).
Proof.
  unfold Stake.read. yield_field (yields_readUInt 16). yield_field yields_PublicKey.
  apply yields_ret. unfold Stake.wf. cbn [Stake.stake Stake.publicKey]. wf_conj.
Qed.

Lemma yields_AddKey : yields AddKey.read (fun x => AddKey.wf x = true).
Proof.
  unfold AddKey.read. yield_field yields_PublicKey. yield_field yields_AccessKey.
  apply yields_ret. unfold AddKey.wf. cbn [AddKey.publicKey AddKey.accessKey]. wf_conj.
Qed.

Lemma yields_DeleteKey : yields DeleteKey.read (fun x => DeleteKey.wf x = true).
Proof.
  unfold DeleteKey.read. yield_field yields_PublicKey. apply yields_ret. assumption.
Qed.

Lemma yields_DeleteAccount :
  yields DeleteAccount.read (fun x => DeleteAccount.wf x = true).
Proof.
  unfold DeleteAccount.read. yield_field yields_readString. apply yields_ret. assumption.
Qed.

Section ReadersOfWellFormedActions.

Context {A : Type} (read_Action : Reader A) (wf_Action : A -> bool).
Hypothesis yields_Action : yields read_Action (fun a => wf_Action a = true).

Lemma yields_DelegateAction :
  yields (DelegateAction.read read_Action) (fun x => DelegateAction.wf wf_Action x = true).
Proof.
  unfold DelegateAction.read. yield_field yields_readString. yield_field yields_readString.
  eapply yields_bind;
    [apply (yields_readArray (NonDelegateAction.read read_Action)
              (NonDelegateAction.wf wf_Action))|].
  { unfold NonDelegateAction.read. yield_field yields_Action. apply yields_ret.
    unfold NonDelegateAction.wf. assumption. }
  intros l [Hl Hall]. yield_field (yields_readUInt 8). yield_field (yields_readBuffer 32).
  yield_field yields_PublicKey. apply yields_ret. unfold DelegateAction.wf.
  cbn [DelegateAction.senderId DelegateAction.receiverId DelegateAction.actions
       DelegateAction.nonce DelegateAction.blockHash DelegateAction.publicKey].
  wf_conj. apply Nat.eqb_eq. assumption.
Qed.

Lemma yields_SignedDelegateAction :
  yields (SignedDelegateAction.read read_Action)
    (fun x => SignedDelegateAction.wf wf_Action x = true).
Proof.
  unfold SignedDelegateAction.read. yield_field yields_DelegateAction.
  yield_field yields_Signature. apply yields_ret. unfold SignedDelegateAction.wf.
  cbn [SignedDelegateAction.delegateAction SignedDelegateAction.signature]. wf_conj.
Qed.

End ReadersOfWellFormedActions.

Lemma yields_Action_read (fuel : nat) :
  yields (Action.read fuel) (fun a => Action.wf a = true).
Proof.
  induction fuel as [|fuel IH]; cbn [Action.read]; [apply yields_fail|].
  apply yields_readEnum. unfold Action.values.
  repeat constructor; cbn [snd].
  - eapply yields_bind with (P := fun _ => True); [intros ? ? ? _; exact I|].
    intros. apply yields_ret. reflexivity.
  - yield_field yields_DeployContract. apply yields_ret. assumption.
  - yield_field yields_FunctionCall. apply yields_ret. assumption.
  - yield_field yields_Transfer. apply yields_ret. assumption.
  - yield_field yields_Stake. apply yields_ret. assumption.
  - yield_field yields_AddKey. apply yields_ret. assumption.
  - yield_field yields_DeleteKey. apply yields_ret. assumption.
  - yield_field yields_DeleteAccount. apply yields_ret. assumption.
  - yield_field (yields_SignedDelegateAction (Action.read fuel) Action.wf IH).
    apply yields_ret. assumption.
Qed.

Lemma yields_Transaction (fuel : nat) :
  yields (Transaction.read fuel) (fun x => Transaction.wf x = true).
Proof.
  unfold Transaction.read. yield_field yields_readString. yield_field yields_PublicKey.
  yield_field (yields_readUInt 8). yield_field yields_readString.
  yield_field (yields_readBuffer 32).
  eapply yields_bind;
    [apply (yields_readArray (Action.read fuel) Action.wf), yields_Action_read|].
  intros l [Hl Hall]. apply yields_ret. unfold Transaction.wf.
  cbn [Transaction.signerId Transaction.publicKey Transaction.nonce Transaction.receiverId
       Transaction.actions Transaction.blockHash].
  wf_conj. apply Nat.eqb_eq. assumption.
Qed.

Lemma yields_reader (c : Class.t) (fuel : nat) :
  yields (reader (SCHEMA c) fuel) (fun x => well_formed c x = true).
Proof.
  destruct c; cbn [SCHEMA reader well_formed instance].
  - apply yields_Signature.
  - unfold SignedTransaction.read. yield_field (yields_Transaction fuel).
    yield_field yields_Signature. apply yields_ret. unfold SignedTransaction.wf.
    cbn [SignedTransaction.transaction SignedTransaction.signature]. wf_conj.
  - apply yields_Transaction.
  - apply yields_PublicKey.
  - apply yields_AccessKey.
  - apply yields_AccessKeyPermission.
  - apply yields_FunctionCallPermission.
  - intros ? ? ? _. reflexivity.
  - apply yields_Action_read.
  - intros ? ? ? _. reflexivity.
  - apply yields_DeployContract.
  - apply yields_FunctionCall.
  - apply yields_Transfer.
  - apply yields_Stake.
  - apply yields_AddKey.
  - apply yields_DeleteKey.
  - apply yields_DeleteAccount.
  - unfold NonDelegateAction.read. yield_field (yields_Action_read fuel).
    apply yields_ret. assumption.
  - apply yields_DelegateAction, yields_Action_read.
  - apply yields_SignedDelegateAction, yields_Action_read.
Qed.

(** X4.  Whatever decodes is well-formed: every value that [deserialize]
    returns satisfies the widths, ranges and lengths of its class, and can
    be serialized again. *)
Theorem deserialize_yields_well_formed (c : Class.t) (buffer : bytes) (x : instance c) :
  deserialize c buffer = Ok x ->
  well_formed c x = true /\ succeeds (serialize c x).
Proof.
  unfold deserialize, read_to_end. intros E.
  destruct (reader (SCHEMA c) (List.length buffer) buffer) as [[y rest]|] eqn:Er;
    [|discriminate].
  destruct rest; [|discriminate]. inversion E. subst y.
  pose proof (yields_reader c _ _ _ _ Er) as Hwf. cbn beta in Hwf.
  split; [exact Hwf|]. apply serialize_well_formed, Hwf.
Qed.

Lemma deserialize_yields_well_formed_witness :
  well_formed Class.Action (transfer 1000) = true /\
  succeeds (serialize Class.Action (transfer 1000)).
Proof.
  apply (deserialize_yields_well_formed Class.Action ([x03; xe8; x03] ++ repeat x00 14)).
  reflexivity.
Defined.



Lemma deserialize_rejects_trailing_bytes_witness :
  deserialize Class.Transaction (sample_message ++ [x00]) = Err TrailingBytes.
Proof.
  apply (deserialize_rejects_trailing_bytes Class.Transaction sample_transaction).
  - reflexivity.
  - discriminate.
Defined.

Lemma relayed_delegate_action_keeps_inner_message_witness :
  exists inner outer before after,
    serialize Class.DelegateAction
      (DelegateAction.mk "alice.test" "bob.test"
         (map NonDelegateAction.mk [transfer 1; createAccount]) 3 sample_blockHash
         (KeyPair.getPublicKey sample_keyPair)) = Ok inner /\
    signed_messages sample_signer
      (signTransaction
         (sign_transaction
            (createTransaction (Some "relayer.test") sample_publicKey "alice.test" 9
               [sample_signed_delegate] sample_blockHash)
            (Some "relayer.test") None)) = [outer] /\
    outer = before ++ inner ++ after.
Proof.
  assert (Hrun : exists result,
            run sample_signer
              (signTransaction
                 (sign_transaction
                    (createTransaction (Some "relayer.test") sample_publicKey "alice.test" 9
                       [sample_signed_delegate] sample_blockHash)
                    (Some "relayer.test") None)) = Ok result)
    by (eexists; vm_compute; reflexivity).
  destruct Hrun as [[hash signedTx] Hrun].
  destruct (relayed_delegate_action_keeps_inner_message "alice.test" "bob.test"
              [transfer 1; createAccount] 3 sample_blockHash sample_keyPair
              sample_signed_delegate sample_signer
              (createTransaction (Some "relayer.test") sample_publicKey "alice.test" 9
                 [sample_signed_delegate] sample_blockHash)
              (Some "relayer.test") None hash signedTx)
    as (inner & outer & before & after & Hi & Hs & Ho & _).
  - vm_compute. reflexivity.
  - left. reflexivity.
  - exact Hrun.
  - exists inner, outer, before, after. auto.
Defined.
